(** * go-fdo-client: the [onboard] command (cmd/onboard.go)

    A shallow embedding of the failover-and-selection logic of the
    onboarding client: the path-containment closures handed to the
    download and wget service-info modules, the upload virtual file
    system [fsVar], and the rendezvous / transfer walkers of
    [transferOwnership].

    Go strings are byte strings: they are modelled by [string] (a list of
    8-bit [ascii]).  The Go map [fsVar] is a [gmap string string]. *)

From Stdlib Require Import Ascii NArith ZArith DecimalString.
From stdpp Require Import base tactics option list strings gmap.


(** ** The parts of the Go standard library the command relies on

    Unix build: [filepath.Separator] is the slash and there are no volume
    names. *)

Definition isSep (c : ascii) : bool := Ascii.eqb c "/".

(** [strings.ContainsRune(s, '/')] *)
Fixpoint hasSep (s : string) : bool :=
  match s with
  | EmptyString => false
  | String c s' => isSep c || hasSep s'
  end.

Module gostrings.

(** [strings.Split(s, "/")]: the pieces between slashes; never empty,
    [Split "" = [""]]. *)
Fixpoint Split (s : string) : list string :=
  match s with
  | EmptyString => [EmptyString]
  | String c s' =>
      if isSep c then EmptyString :: Split s'
      else match Split s' with
           | [] => [String c EmptyString]
           | e :: es => String c e :: es
           end
  end.

(** [strings.Join(elems, sep)] *)
Fixpoint Join (elems : list string) (sep : string) : string :=
  match elems with
  | [] => EmptyString
  | e :: rest =>
      match rest with
      | [] => e
      | _ :: _ => e +:+ sep +:+ Join rest sep
      end
  end.

(** [strings.HasPrefix(s, "/")] *)
Definition HasPrefixSep (s : string) : bool :=
  match s with
  | String c _ => isSep c
  | EmptyString => false
  end.

End gostrings.

Module filepath.

(** One path element of [Clean].  [out] is the output built so far, last
    element first.  Empty and [.] elements are dropped; [..] removes the
    last real element, is dropped at the root of a rooted path, and is
    kept when a relative path has nothing left to remove. *)
Definition cleanElem (rooted : bool) (out : list string) (e : string) : list string :=
  if String.eqb e "" || String.eqb e "." then out
  else if String.eqb e ".." then
    match out with
    | top :: below => if String.eqb top ".." then e :: out else below
    | [] => if rooted then [] else [e]
    end
  else e :: out.

(** [filepath.Clean(path)] *)
Definition Clean (path : string) : string :=
  if String.eqb path "" then "."
  else
    let rooted := gostrings.HasPrefixSep path in
    let out := rev (fold_left (cleanElem rooted) (gostrings.Split path) []) in
    let body := gostrings.Join out "/" in
    if rooted then "/" +:+ body
    else if String.eqb body "" then "." else body.

(** [filepath.IsAbs(path)] *)
Definition IsAbs (path : string) : bool := gostrings.HasPrefixSep path.

(** [filepath.Join(elem...)]: leading empty elements are ignored, the
    rest is joined with slashes and cleaned. *)
Fixpoint Join (elem : list string) : string :=
  match elem with
  | [] => ""
  | e :: rest =>
      if String.eqb e "" then Join rest
      else Clean (gostrings.Join elem "/")
  end.

(** [path] without its trailing slashes. *)
Fixpoint stripTrailingSeps (path : string) : string :=
  match path with
  | EmptyString => EmptyString
  | String c s' =>
      match stripTrailingSeps s' with
      | EmptyString => if isSep c then EmptyString else String c EmptyString
      | t => String c t
      end
  end.

(** [path[i+1:]] for the last slash [i] of [path]; [path] when it has
    none. *)
Fixpoint afterLastSep (path : string) : string :=
  match path with
  | EmptyString => EmptyString
  | String c s' =>
      if hasSep s' then afterLastSep s'
      else if isSep c then s' else path
  end.

(** [path[:i+1]] for the last slash [i] of [path]; empty when it has
    none. *)
Fixpoint uptoLastSep (path : string) : string :=
  match path with
  | EmptyString => EmptyString
  | String c s' =>
      if isSep c || hasSep s' then String c (uptoLastSep s') else EmptyString
  end.

(** [filepath.Base(path)] *)
Definition Base (path : string) : string :=
  if String.eqb path "" then "."
  else
    let last := afterLastSep (stripTrailingSeps path) in
    if String.eqb last "" then "/" else last.

(** [filepath.Dir(path)] *)
Definition Dir (path : string) : string := Clean (uptoLastSep path).

(** *** [Clean] the way the library writes it

    One pass over the bytes with the unread input [rest], the output
    buffer [out] and the index [dotdot] below which a [..] may not remove
    anything.  [Clean] above is what the facts are proved about; this
    transcription is there to check it against. *)

Definition isDot (c : ascii) : bool := Ascii.eqb c ".".

(** [r == n || os.IsPathSeparator(path[r])] *)
Definition atElemEnd (rest : list ascii) : bool :=
  match rest with
  | [] => true
  | c :: _ => isSep c
  end.

Fixpoint elemBytes (rest : list ascii) : list ascii :=
  match rest with
  | [] => []
  | c :: rest' => if isSep c then [] else c :: elemBytes rest'
  end.

Fixpoint afterElem (rest : list ascii) : list ascii :=
  match rest with
  | [] => []
  | c :: rest' => if isSep c then rest else afterElem rest'
  end.

(** [for out.w > dotdot && !os.IsPathSeparator(out.index(out.w)) { out.w-- }] *)
Fixpoint backtrack (buf : list ascii) (dotdot w : nat) : nat :=
  match w with
  | O => O
  | S w' =>
      if (dotdot <? w)%nat
         && negb (match buf !! w with Some c => isSep c | None => false end)
      then backtrack buf dotdot w'
      else w
  end.

Fixpoint cleanLoop (fuel : nat) (rooted : bool) (rest out : list ascii) (dotdot : nat)
  : list ascii :=
  match fuel with
  | O => out
  | S fuel' =>
      match rest with
      | [] => out
      | c :: rest1 =>
          if isSep c then cleanLoop fuel' rooted rest1 out dotdot
          else if isDot c && atElemEnd rest1 then cleanLoop fuel' rooted rest1 out dotdot
          else if isDot c
                  && match rest1 with
                     | d :: rest2 => isDot d && atElemEnd rest2
                     | [] => false
                     end
          then
            let rest2 := tail rest1 in
            if (dotdot <? length out)%nat then
              let w := backtrack out dotdot (length out - 1) in
              cleanLoop fuel' rooted rest2 (take w out) dotdot
            else if negb rooted then
              let out := if (0 <? length out)%nat then out ++ ["/"%char] else out in
              let out := out ++ ["."%char; "."%char] in
              cleanLoop fuel' rooted rest2 out (length out)
            else cleanLoop fuel' rooted rest2 out dotdot
          else
            let out :=
              if rooted && negb (length out =? 1)%nat
                 || negb rooted && negb (length out =? 0)%nat
              then out ++ ["/"%char] else out in
            cleanLoop fuel' rooted (afterElem rest) (out ++ elemBytes rest) dotdot
      end
  end.

Definition CleanBytes (path : string) : string :=
  match String.list_ascii_of_string path with
  | [] => "."
  | c :: rest =>
      let n := String.length path in
      let out :=
        if isSep c then cleanLoop n true rest ["/"%char] 1
        else cleanLoop n false (c :: rest) [] 0 in
      match out with
      | [] => "."
      | _ :: _ => String.string_of_list_ascii out
      end
  end.

(** All the strings of length [n] over [alphabet]. *)
Fixpoint wordsOfLength (alphabet : list ascii) (n : nat) : list string :=
  match n with
  | O => [EmptyString]
  | S n' => flat_map (fun w => map (fun c => String c w) alphabet) (wordsOfLength alphabet n')
  end.

End filepath.

Module utf8.

Definition between (lo hi : N) (c : ascii) : bool :=
  (lo <=? N_of_ascii c)%N && (N_of_ascii c <=? hi)%N.

Definition cont (c : ascii) : bool := between 128 191 c.

(** [utf8.ValidString(s)]: every byte is ASCII or part of a well-formed
    multi-byte encoding (no overlong forms, no surrogates, nothing above
    U+10FFFF). *)
Fixpoint ValidString (s : string) : bool :=
  match s with
  | EmptyString => true
  | String c0 s1 =>
      if (N_of_ascii c0 <? 128)%N then ValidString s1
      else
        match s1 with
        | EmptyString => false
        | String c1 s2 =>
            if between 194 223 c0 then cont c1 && ValidString s2
            else
              match s2 with
              | EmptyString => false
              | String c2 s3 =>
                  if between 224 239 c0 then
                    (if Ascii.eqb c0 "224" then between 160 191 c1
                     else if Ascii.eqb c0 "237" then between 128 159 c1
                     else cont c1)
                    && cont c2 && ValidString s3
                  else
                    match s3 with
                    | EmptyString => false
                    | String c3 s4 =>
                        if between 240 244 c0 then
                          (if Ascii.eqb c0 "240" then between 144 191 c1
                           else if Ascii.eqb c0 "244" then between 128 143 c1
                           else cont c1)
                          && cont c2 && cont c3 && ValidString s4
                        else false
                    end
              end
        end
  end.

End utf8.

Module iofs.

Inductive errno := ErrInvalid | ErrNotExist.

(** [fs.PathError] *)
Record PathError := { Op : string; Path : string; Err : errno }.

Definition validElem (e : string) : bool :=
  negb (String.eqb e "" || String.eqb e "." || String.eqb e "..").

(** [fs.ValidPath(name)]: valid UTF-8, and either the single dot or
    slash-separated elements none of which is empty, [.] or [..]. *)
Definition ValidPath (name : string) : bool :=
  utf8.ValidString name
  && (String.eqb name "." || forallb validElem (gostrings.Split name)).

End iofs.

(** ** Path containment of downloaded files *)

(** The [NameToPath] closure of [fsim.Download] and of [fsim.Wget]; [dir]
    is the captured [dlDir] (respectively [wgetDir]). *)
Definition NameToPath (dir name : string) : string :=
  let cleanName := filepath.Clean name in
  if negb (filepath.IsAbs cleanName) then filepath.Join [dir; cleanName]
  else filepath.Join [dir; filepath.Base cleanName].

(** [real] is [dir] itself or lies below it. *)
Definition insideDir (dir real : string) : bool :=
  String.eqb real dir || String.prefix (dir +:+ "/") real.

(** ** The upload file system *)

(** The loop of [pathToName] that drops the leading [..] and [.]
    elements. *)
Fixpoint dropDots (pathparts : list string) : list string :=
  match pathparts with
  | p :: rest => if String.eqb p ".." || String.eqb p "." then dropDots rest else pathparts
  | [] => []
  end.

(** [pathToName(path, abs)]; [None] is the run-time panic of [path[:1]] on
    the empty string. *)
Definition pathToName (path abs : string) : option string :=
  let cleaned := filepath.Clean path in
  match path with
  | EmptyString => None
  | String c _ =>
      if isSep c then Some cleaned
      else
        let pathparts := dropDots (gostrings.Split cleaned) in
        let pathparts :=
          if (length pathparts =? 0)%nat && negb (String.eqb abs "")
          then [filepath.Base abs] else pathparts in
        Some (filepath.Join pathparts)
  end.

(** What [Open] returns: one of its own path errors, or whatever
    [os.Open(real)] returns. *)
Inductive opened :=
| Failed (e : iofs.PathError)
| OsOpen (real : string).

(** The ancestor loop of [Open]: [Some None] when the walk reaches the root
    or the dot without a match, [Some (Some abs)] at the first registered
    ancestor, [None] when the iteration budget runs out. *)
Fixpoint walkUp (fuel : nat) (files : gmap string string) (dir : string)
  : option (option string) :=
  match fuel with
  | O => None
  | S fuel' =>
      if String.eqb dir "/" || String.eqb dir "." then Some None
      else match files !! dir with
           | Some abs => Some (Some abs)
           | None => walkUp fuel' files (filepath.Dir dir)
           end
  end.

Definition invalidPath (path : string) : opened :=
  Failed {| iofs.Op := "open"; iofs.Path := path; iofs.Err := iofs.ErrInvalid |}.

Definition notFound (path : string) : opened :=
  Failed {| iofs.Op := "open"; iofs.Path := path; iofs.Err := iofs.ErrNotExist |}.

(** [fsVar.Open(path)].  The outer [None] stands for a panic or for an
    exhausted iteration budget. *)
Definition Open (files : gmap string string) (path : string) : option opened :=
  if negb (iofs.ValidPath path) then
    Some (invalidPath path)
  else
    match files !! "/" with
    | Some _ => Some (OsOpen (filepath.Clean path))
    | None =>
        name ← pathToName path "";
        match files !! name with
        | Some abs => Some (OsOpen (filepath.Clean abs))
        | None =>
            found ← walkUp (S (String.length name)) files (filepath.Dir name);
            match found with
            | Some abs => Some (OsOpen (filepath.Clean abs))
            | None => Some (notFound path)
            end
        end
    end.

(** ** More of the standard library: ports and hosts *)

Module strconv.

(** [strconv.Itoa(i)] *)
Definition Itoa (i : Z) : string := NilZero.string_of_int (Z.to_int i).

End strconv.

Module net.

Fixpoint hasColon (host : string) : bool :=
  match host with
  | EmptyString => false
  | String c s' => Ascii.eqb c ":" || hasColon s'
  end.

(** [net.JoinHostPort(host, port)]: a host with a colon is taken for an
    IPv6 literal and bracketed. *)
Definition JoinHostPort (host port : string) : string :=
  if hasColon host then "[" +:+ host +:+ "]:" +:+ port
  else host +:+ ":" +:+ port.

End net.

(** ** Data of the protocol library *)

(** [protocol.RvDirective]; a URL is kept as the text [url.String()]
    renders, the only way the command looks at it.  [Delay] is a
    [time.Duration] (nanoseconds). *)
Record RvDirective := {
  URLs : list string;
  Bypass : bool;
  Delay : Z
}.

Module protocol.

(** [protocol.TransportProtocol]; the command only tells HTTP and HTTPS
    from the rest. *)
Inductive TransportProtocol :=
| HTTPTransport
| HTTPSTransport
| OtherTransport (code : N).

End protocol.

(** [protocol.RvTO2Addr]; [Port] is a [uint16]. *)
Record RvTO2Addr (IP : Type) := {
  IPAddress : option IP;
  DNSAddress : option string;
  Port : Z;
  TransportProtocol : protocol.TransportProtocol
}.
Arguments IPAddress {IP} _.
Arguments DNSAddress {IP} _.
Arguments Port {IP} _.
Arguments TransportProtocol {IP} _.

(** The payload of the signed redirection blob, [to1d.Payload.Val]. *)
Record To1d (IP : Type) := { RV : list (RvTO2Addr IP) }.
Arguments RV {IP} _.

(** The service-info modules [transferOwnership2] hands to TO2.  The
    download and wget modules carry the directory their [CreateTemp] and
    [NameToPath] closures capture. *)
Inductive DeviceModule :=
| Interop
| Download (dir : string)
| Command
| Upload (FS : gmap string string)
| Wget (dir : string).

(** The [NameToPath] field of a module, for the two modules that have one. *)
Definition moduleNameToPath (m : DeviceModule) : option (string -> string) :=
  match m with
  | Download dir | Wget dir => Some (NameToPath dir)
  | _ => None
  end.

(** [fdo.TO2Config], the fields that vary. *)
Record TO2Config (DeviceCredential : Type) := {
  Cred : DeviceCredential;
  DeviceModules : gmap string DeviceModule
}.
Arguments Cred {DeviceCredential} _.
Arguments DeviceModules {DeviceCredential} _.

(** [ctx]: whether its [Done] channel is already closed when
    [transferOwnership] is entered.  A context never un-cancels. *)
Record Ctx := { doneAtEntry : bool }.

(** How the rendezvous loop ends: the [return nil] of the [select], the
    [break TO1], or the end of the directive list. *)
Inductive walked (B : Type) :=
| Cancelled
| Broke (to1d : option B)
| Exhausted (to1d : option B).
Arguments Cancelled {B}.
Arguments Broke {B} to1d.
Arguments Exhausted {B} to1d.

(** What the walkers do to the outside world, in order. *)
Inductive event (DeviceCredential IP : Type) :=
| CallTO1 (url : string) (failed : bool)
| LogTO1Failed (url : string)
| Suspend (delay : Z) (cancelled : bool)
| LogBothNull
| CallLookupHost (dns : string) (resolved : bool)
| PrintBlob (blob : To1d IP)
| CallTO2 (baseURL : string) (cred : option DeviceCredential) (failed : bool)
| LogTO2Failed
| CallReadCred
| Println (msg : string)
| CallUpdateCred (cred : DeviceCredential)
| CallCleanup.
Arguments CallTO1 {DeviceCredential IP} url failed.
Arguments LogTO1Failed {DeviceCredential IP} url.
Arguments Suspend {DeviceCredential IP} delay cancelled.
Arguments LogBothNull {DeviceCredential IP}.
Arguments CallLookupHost {DeviceCredential IP} dns resolved.
Arguments PrintBlob {DeviceCredential IP} blob.
Arguments CallTO2 {DeviceCredential IP} baseURL cred failed.
Arguments LogTO2Failed {DeviceCredential IP}.
Arguments CallReadCred {DeviceCredential IP}.
Arguments Println {DeviceCredential IP} msg.
Arguments CallUpdateCred {DeviceCredential IP} cred.
Arguments CallCleanup {DeviceCredential IP}.

(** The stage of the onboarding an event belongs to. *)
Inductive phase := Rendezvous | Resolution | Transfer | Report | Storage.

Definition phaseOf {DeviceCredential IP : Type} (e : event DeviceCredential IP) : phase :=
  match e with
  | CallTO1 _ _ | LogTO1Failed _ | Suspend _ _ => Rendezvous
  | LogBothNull | CallLookupHost _ _ => Resolution
  | CallTO2 _ _ _ | LogTO2Failed => Transfer
  | PrintBlob _ | Println _ => Report
  | CallReadCred | CallUpdateCred _ | CallCleanup => Storage
  end.

(** The collaborators of the command: the protocol library, the network,
    the clock and the credential store.  Each call may read and change the
    world; a [bool] next to a result says [err != nil]. *)
Class Collaborators := {
  World : Type;
  DeviceCredential : Type;
  IP : Type;
  (** [fdo.TO1] over a transport bound to the URL *)
  fdo_TO1 : string -> DeviceCredential -> World -> option (To1d IP) * bool * World;
  (** [fdo.TO2] over a transport bound to the URL *)
  fdo_TO2 : string -> option (To1d IP) -> TO2Config DeviceCredential -> World ->
            option DeviceCredential * bool * World;
  (** [net.LookupHost(dns)], [true] when [err == nil] *)
  net_LookupHost : string -> World -> bool * World;
  (** [ip.String()] and [net.ParseIP(s) != nil] *)
  IP_String : IP -> string;
  net_ParseIP : string -> bool;
  (** the [select] between [ctx.Done()] and [time.After(delay)] when it is
      not decided at entry: [true] when the [Done] case is taken *)
  awaitTimer : Z -> World -> bool * World;
  (** [readCred()]: the credential and whether a cleanup came with it, or
      an error *)
  readCred : World -> (DeviceCredential * bool + string) * World;
  (** [updateCred(cred, FDO_STATE_IDLE)] *)
  updateCred : DeviceCredential -> World -> option string * World;
  cleanup : World -> World;
  (** [protocol.ParseDeviceRvInfo(dc.RvInfo)] *)
  ParseDeviceRvInfo : DeviceCredential -> list RvDirective;
  (** [kex.CipherSuiteByName] *)
  CipherSuiteByName : string -> option N
}.

(** The package-level flags. *)
Class Flags := {
  cipherSuite : string;
  dlDir : string;
  wgetDir : string;
  echoCmds : bool;
  rvOnly : bool;
  uploads : gmap string string
}.

Definition msgNotUpdated : string :=
  "Credential not updated (either due to failure of TO2 or the Credential Reuse Protocol".

Section Onboard.

Context `{Collaborators, Flags}.

Abbreviation Event := (event DeviceCredential IP).
Abbreviation Blob := (To1d IP).
Abbreviation Config := (TO2Config DeviceCredential).

(** *** A monad for world passing with an event log *)

Definition M (A : Type) : Type := World -> A * World * list Event.

Definition ret {A} (a : A) : M A := fun w => (a, w, []).

Definition bind {A B} (m : M A) (k : A -> M B) : M B :=
  fun w =>
    let '(a, w1, t1) := m w in
    let '(b, w2, t2) := k a w1 in
    (b, w2, t1 ++ t2).

Definition emit (e : Event) : M unit := fun w => (tt, w, [e]).

Notation "'let*' x := m 'in' k" := (bind m (fun x => k))
  (at level 10, x name, m at level 100, k at level 200).
Notation "m >> k" := (bind m (fun _ => k))
  (at level 100, k at level 200, right associativity).

(** *** Calls to the collaborators *)

Definition callTO1 (url : string) (conf : Config) : M (option Blob * bool) :=
  fun w =>
    let '(to1d, err, w') := fdo_TO1 url (Cred conf) w in
    ((to1d, err), w', [CallTO1 url err]).

Definition callTO2 (baseURL : string) (to1d : option Blob) (conf : Config)
  : M (option DeviceCredential * bool) :=
  fun w =>
    let '(cred, err, w') := fdo_TO2 baseURL to1d conf w in
    ((cred, err), w', [CallTO2 baseURL cred err]).

Definition callReadCred : M (DeviceCredential * bool + string) :=
  fun w => let '(r, w') := readCred w in (r, w', [CallReadCred]).

Definition callUpdateCred (cred : DeviceCredential) : M (option string) :=
  fun w => let '(err, w') := updateCred cred w in (err, w', [CallUpdateCred cred]).

Definition callCleanup : M unit := fun w => (tt, cleanup w, [CallCleanup]).

(** [isValidIP(ip)] *)
Definition isValidIP (ip : string) : bool := net_ParseIP ip.

(** [isResolvableDNS(dns)] *)
Definition isResolvableDNS (dns : string) : M bool :=
  fun w =>
    let '(ok, w') := net_LookupHost dns w in
    (ok, w', [CallLookupHost dns ok]).

(** The [select] of the rendezvous loop.  With the context cancelled
    before the walk and a positive delay, [Done] is the only ready case;
    otherwise the world decides which case comes first. *)
Definition selectDone (ctx : Ctx) (delay : Z) : M bool :=
  fun w =>
    if doneAtEntry ctx && (0 <? delay)%Z then (true, w, [Suspend delay true])
    else
      let '(cancelled, w') := awaitTimer delay w in
      (cancelled, w', [Suspend delay cancelled]).

(** *** [transferOwnership2] *)

Definition deviceModules : gmap string DeviceModule :=
  let fsims : gmap string DeviceModule := {[ "fido_alliance" := Interop ]} in
  let fsims :=
    if negb (String.eqb dlDir "") then <[ "fdo.download" := Download dlDir ]> fsims
    else fsims in
  let fsims := if echoCmds then <[ "fdo.command" := Command ]> fsims else fsims in
  let fsims :=
    if (0 <? size uploads)%nat then <[ "fdo.upload" := Upload uploads ]> fsims
    else fsims in
  if negb (String.eqb wgetDir "") then <[ "fdo.wget" := Wget wgetDir ]> fsims
  else fsims.

Definition transferOwnership2 (baseURL : string) (to1d : option Blob) (conf : Config)
  : M (option DeviceCredential) :=
  let conf := {| Cred := Cred conf; DeviceModules := deviceModules |} in
  let* r := callTO2 baseURL to1d conf in
  if snd r then emit LogTO2Failed >> ret None
  else ret (fst r).

(** *** [transferOwnership] *)

(** The first loop: the URLs of the bypass directives. *)
Definition appendURLs (to2URLs urls : list string) : list string :=
  fold_left (fun acc url => acc ++ [url]) urls to2URLs.

Fixpoint collectBypass (directives : list RvDirective) (to2URLs : list string)
  : list string :=
  match directives with
  | [] => to2URLs
  | directive :: rest =>
      if negb (Bypass directive) then collectBypass rest to2URLs
      else collectBypass rest (appendURLs to2URLs (URLs directive))
  end.

(** The inner loop of [TO1]: the blob variable after it, and whether it
    left through [break TO1]. *)
Fixpoint to1URLs (conf : Config) (urls : list string) (to1d : option Blob)
  : M (option Blob * bool) :=
  match urls with
  | [] => ret (to1d, false)
  | url :: rest =>
      let* r := callTO1 url conf in
      if snd r then emit (LogTO1Failed url) >> to1URLs conf rest (fst r)
      else ret (fst r, true)
  end.

(** The loop labelled [TO1]. *)
Fixpoint to1Walk (ctx : Ctx) (conf : Config) (directives : list RvDirective)
  (to1d : option Blob) : M (walked Blob) :=
  match directives with
  | [] => ret (Exhausted to1d)
  | directive :: rest =>
      if Bypass directive then to1Walk ctx conf rest to1d
      else
        let* r := to1URLs conf (URLs directive) to1d in
        if snd r then ret (Broke (fst r))
        else if negb (Delay directive =? 0)%Z then
          let* cancelled := selectDone ctx (Delay directive) in
          if cancelled then ret Cancelled
          else to1Walk ctx conf rest (fst r)
        else to1Walk ctx conf rest (fst r)
  end.

(** The scheme and port part of one owner address, once the transport
    protocol gave [scheme] and the default [port]. *)
Definition schemeURLs (to2Addr : RvTO2Addr IP) (scheme port : string)
  (to2URLs : list string) : M (list string) :=
  let port :=
    if negb (Port to2Addr =? 0)%Z then strconv.Itoa (Port to2Addr) else port in
  let* to2URLs :=
    match DNSAddress to2Addr with
    | Some dns =>
        let* ok := isResolvableDNS dns in
        if ok then ret (to2URLs ++ [scheme +:+ net.JoinHostPort dns port])
        else ret to2URLs
    | None => ret to2URLs
    end in
  match IPAddress to2Addr with
  | Some ip =>
      if isValidIP (IP_String ip)
      then ret (to2URLs ++ [scheme +:+ net.JoinHostPort (IP_String ip) port])
      else ret to2URLs
  | None => ret to2URLs
  end.

(** One owner address of the blob: the candidate list after it. *)
Definition addrURLs (to2Addr : RvTO2Addr IP) (to2URLs : list string) : M (list string) :=
  match DNSAddress to2Addr, IPAddress to2Addr with
  | None, None => emit LogBothNull >> ret to2URLs
  | _, _ =>
      match TransportProtocol to2Addr with
      | protocol.HTTPTransport => schemeURLs to2Addr "http://" "80" to2URLs
      | protocol.HTTPSTransport => schemeURLs to2Addr "https://" "443" to2URLs
      | protocol.OtherTransport _ => ret to2URLs
      end
  end.

(** The loop over [to1d.Payload.Val.RV]. *)
Fixpoint blobURLs (addrs : list (RvTO2Addr IP)) (to2URLs : list string)
  : M (list string) :=
  match addrs with
  | [] => ret to2URLs
  | to2Addr :: rest =>
      let* to2URLs := addrURLs to2Addr to2URLs in
      blobURLs rest to2URLs
  end.

(** The [if to1d != nil] block. *)
Definition derivedURLs (to1d : option Blob) (to2URLs : list string) : M (list string) :=
  match to1d with
  | Some blob => blobURLs (RV blob) to2URLs
  | None => ret to2URLs
  end.

(** Everything up to the rendezvous-only check: the transfer candidates
    and the blob, or [None] when the walk was cancelled. *)
Definition to2Candidates (ctx : Ctx) (directives : list RvDirective) (conf : Config)
  : M (option (list string * option Blob)) :=
  let to2URLs := collectBypass directives [] in
  let* out := to1Walk ctx conf directives None in
  match out with
  | Cancelled => ret None
  | Broke to1d | Exhausted to1d =>
      let* to2URLs := derivedURLs to1d to2URLs in
      ret (Some (to2URLs, to1d))
  end.

(** The last loop: TO2 on each candidate. *)
Fixpoint to2Walk (to2URLs : list string) (to1d : option Blob) (conf : Config)
  : M (option DeviceCredential) :=
  match to2URLs with
  | [] => ret None
  | baseURL :: rest =>
      let* newDC := transferOwnership2 baseURL to1d conf in
      match newDC with
      | Some dc => ret (Some dc)
      | None => to2Walk rest to1d conf
      end
  end.

Definition transferOwnership (ctx : Ctx) (directives : list RvDirective) (conf : Config)
  : M (option DeviceCredential) :=
  let* found := to2Candidates ctx directives conf in
  match found with
  | None => ret None
  | Some (to2URLs, to1d) =>
      if rvOnly then
        match to1d with
        | Some blob => emit (PrintBlob blob) >> ret None
        | None => ret None
        end
      else to2Walk to2URLs to1d conf
  end.

(** *** [doOnboard] *)

(** [doOnboard] after [readCred] succeeded. *)
Definition doOnboardWith (ctx : Ctx) (dc : DeviceCredential) : M (option string) :=
  match CipherSuiteByName cipherSuite with
  | None => ret (Some ("invalid key exchange cipher suite: " +:+ cipherSuite))
  | Some _ =>
      let* newDC :=
        transferOwnership ctx (ParseDeviceRvInfo dc)
          {| Cred := dc; DeviceModules := ∅ |} in
      if rvOnly then ret None
      else
        match newDC with
        | None => emit (Println msgNotUpdated) >> ret None
        | Some dc' =>
            emit (Println "FIDO Device Onboard Complete") >> callUpdateCred dc'
        end
  end.

(** [doOnboard()]; the result is the returned error, [None] for [nil].
    [ctx] is the package's [clientContext]; the deferred cleanup runs
    last. *)
Definition doOnboard (ctx : Ctx) : M (option string) :=
  let* cred := callReadCred in
  match cred with
  | inr err => ret (Some err)
  | inl (dc, hasCleanup) =>
      let* err := doOnboardWith ctx dc in
      (if hasCleanup then callCleanup else ret tt) >> ret err
  end.

(** *** Reading the event log *)

(** The rendezvous attempts: the URL and whether the attempt failed. *)
Definition to1Calls (log : list Event) : list (string * bool) :=
  omap (fun e => match e with CallTO1 url failed => Some (url, failed) | _ => None end) log.

(** The transfer attempts: the URL and what [transferOwnership2]
    returned for it. *)
Definition to2Attempts (log : list Event) : list (string * option DeviceCredential) :=
  omap (fun e =>
          match e with
          | CallTO2 url cred failed => Some (url, if failed then None else cred)
          | _ => None
          end) log.

Definition isUpdateCred (e : Event) : bool :=
  match e with CallUpdateCred _ => true | _ => false end.

End Onboard.

(** The URLs of the bypass directives, in directive order. *)
Definition bypassURLs (directives : list RvDirective) : list string :=
  flat_map URLs (List.filter Bypass directives).

(** The URLs of the other directives, in directive order. *)
Definition rendezvousURLs (directives : list RvDirective) : list string :=
  flat_map URLs (List.filter (fun d => negb (Bypass d)) directives).

(** Attempts on [urls] that all failed, as [to1Calls] shows them. *)
Definition allFailed (urls : list string) : list (string * bool) :=
  map (fun url => (url, true)) urls.

(** Attempts on [urls] that all came back without a credential, as
    [to2Attempts] shows them. *)
Definition noCredential {DC : Type} (urls : list string) : list (string * option DC) :=
  map (fun url => (url, None)) urls.

(** A path element that [fs.ValidPath] accepts and that holds no slash. *)
Definition goodElem (e : string) : Prop := iofs.validElem e = true ∧ hasSep e = false.

(** ** The shapes of cleaned paths

    What [filepath.Clean] returns: for a rooted path the slash followed by
    real elements, for a relative path some [..] elements followed by real
    elements, or the dot when nothing is left. *)
Definition cleanedAbs (g : list string) : string := "/" +:+ gostrings.Join g "/".

Definition cleanedRel (n : nat) (g : list string) : string :=
  match (replicate n ".." ++ g)%list with
  | [] => "."
  | l => gostrings.Join l "/"
  end.

(** ** The rest of [fsVar]: the [pflag.Value] methods *)

(** [strings.Split(s, sep)] for a one-byte separator. *)
Fixpoint strings_Split (sep : ascii) (s : string) : list string :=
  match s with
  | EmptyString => [EmptyString]
  | String c s' =>
      if Ascii.eqb c sep then EmptyString :: strings_Split sep s'
      else match strings_Split sep s' with
           | [] => [String c EmptyString]
           | e :: es => String c e :: es
           end
  end.

(** [filepath.Abs(path)]; [wd] is what [os.Getwd()] gives, [None] when it
    fails. *)
Definition filepath_Abs (wd : option string) (path : string) : option string :=
  if filepath.IsAbs path then Some (filepath.Clean path)
  else match wd with
       | Some d => Some (filepath.Join [d; path])
       | None => None
       end.

(** How [Set] ends: returning [nil], returning the error wrapped around
    the path that [filepath.Abs] refused, or panicking in [pathToName]. *)
Inductive setOutcome :=
| SetDone
| SetFailed (path : string)
| SetPanicked.

(** The loop of [Set]; the map is updated in place, so what was registered
    before an error or a panic stays registered. *)
Fixpoint setPaths (wd : option string) (paths : list string) (files : gmap string string)
  : gmap string string * setOutcome :=
  match paths with
  | [] => (files, SetDone)
  | path :: rest =>
      match filepath_Abs wd path with
      | None => (files, SetFailed path)
      | Some abs =>
          match pathToName path abs with
          | None => (files, SetPanicked)
          | Some name => setPaths wd rest (<[name := abs]> files)
          end
      end
  end.

(** [fsVar.Set(paths)] *)
Definition fsVar_Set (wd : option string) (files : gmap string string) (paths : string)
  : gmap string string * setOutcome :=
  setPaths wd (strings_Split "," paths) files.

(** [s[:len(s)-1]] *)
Fixpoint dropLastByte (s : string) : string :=
  match s with
  | EmptyString => EmptyString
  | String c s' =>
      match s' with
      | EmptyString => EmptyString
      | String _ _ => String c (dropLastByte s')
      end
  end.

(** [fsVar.String()]; [visit] is the order in which [range] goes through
    the keys, which the language leaves open. *)
Definition fsVar_String (files : gmap string string) (visit : list string) : string :=
  if (size files =? 0)%nat then "[]"
  else
    let paths := fold_left (fun paths path => paths +:+ path +:+ ",") visit "[" in
    dropLastByte paths +:+ "]".

(** [fsVar.Type()] *)
Definition fsVar_Type : string := "fsVar".

(** ** Reading suspensions off a log

    What holds of every suspension in [log]: its delay is not zero, a
    cancelled one is the last event, and with the context cancelled at
    entry a positive delay is always cancelled. *)
Fixpoint suspensionsOK {DeviceCredential IP : Type} (ctx : Ctx)
    (log : list (event DeviceCredential IP)) : Prop :=
  match log with
  | [] => True
  | Suspend delay cancelled :: rest =>
      delay ≠ 0%Z
      ∧ (cancelled = true → rest = [])
      ∧ (doneAtEntry ctx = true → (0 < delay)%Z → cancelled = true)
      ∧ suspensionsOK ctx rest
  | _ :: rest => suspensionsOK ctx rest
  end.

(** ** The command: flag validation and the dispatch on the device state *)

Definition validCipherSuites : list string :=
  [ "A128GCM"; "A192GCM"; "A256GCM";
    "AES-CCM-64-128-128"; "AES-CCM-64-128-256";
    "COSEAES128CBC"; "COSEAES128CTR";
    "COSEAES256CBC"; "COSEAES256CTR" ].

Definition validKexSuites : list string :=
  [ "DHKEXid14"; "DHKEXid15"; "ASYMKEX2048"; "ASYMKEX3072"; "ECDH256"; "ECDH384" ].

(** [slices.Contains(list, s)] *)
Definition slices_Contains (list : list string) (s : string) : bool :=
  existsb (String.eqb s) list.

(** What [os.Stat] says of a path: no error, an error for which
    [os.IsNotExist] holds, or another error. *)
Inductive statResult := StatOk | StatNotExist | StatOtherError.

(** The file system and the helpers of the package that live in other
    files: [isValidPath], and [validateDiKey] given by the error it
    returns ([None] for [nil]). *)
Class Host := {
  os_Stat : string -> statResult;
  isValidPath : string -> bool;
  validateDiKey : option string
}.

(** The remaining package-level flags. *)
Class CommandFlags := {
  kexSuite : string;
  resale : bool;
  debug : bool;
  tpmPath : string
}.

(** [FdoDeviceState]: the five named states, which the [switch] of
    [printDeviceStatus] shows to be distinct constants, and any other
    value. *)
Inductive FdoDeviceState :=
| FDO_STATE_PRE_DI
| FDO_STATE_PRE_TO1
| FDO_STATE_IDLE
| FDO_STATE_RESALE
| FDO_STATE_ERROR
| FDO_STATE_OTHER (code : Z).

(** The device side of the command: the state store and the TPM. *)
Class Device `{Collaborators} := {
  (** [loadDeviceStatus()] *)
  loadDeviceStatus : World -> (FdoDeviceState + string) * World;
  (** [tpm_utils.TpmOpen(path)], by its error *)
  TpmOpen : string -> World -> option string * World;
  (** [tpmc.Close()] *)
  TpmClose : World -> World
}.

(** What the command does besides onboarding. *)
Inductive cmdEvent (DeviceCredential IP : Type) :=
| SetDebugLevel
| OpenTpm (path : string) (failed : bool)
| CloseTpm
| LoadStatus
| DebugLog (msg : string)
| Say (msg : string)
| Onboard (e : event DeviceCredential IP).
Arguments SetDebugLevel {DeviceCredential IP}.
Arguments OpenTpm {DeviceCredential IP} path failed.
Arguments CloseTpm {DeviceCredential IP}.
Arguments LoadStatus {DeviceCredential IP}.
Arguments DebugLog {DeviceCredential IP} msg.
Arguments Say {DeviceCredential IP} msg.
Arguments Onboard {DeviceCredential IP} e.

(** The errors [RunE] returns. *)
Inductive runError :=
| ValidationError (err : string)
| TpmError (err : string)
| LoadStatusError (err : string)
| NotInitialized
| InvalidState (status : FdoDeviceState)
| OnboardError (err : string).

Definition isOnboard {DeviceCredential IP : Type} (e : cmdEvent DeviceCredential IP) : bool :=
  match e with Onboard _ => true | _ => false end.

Definition isTpm {DeviceCredential IP : Type} (e : cmdEvent DeviceCredential IP) : bool :=
  match e with OpenTpm _ _ | CloseTpm => true | _ => false end.

Section Command.

Context `{Collaborators, Flags, Host, CommandFlags, !Device}.

(** [fileExists(path)] *)
Definition fileExists (path : string) : bool :=
  match os_Stat path with
  | StatNotExist => false
  | StatOk | StatOtherError => true
  end.

(** The loop of [validateOnboardFlags] over the keys of [uploads]. *)
Fixpoint validateUploads (visit : list string) : option string :=
  match visit with
  | [] => None
  | path :: rest =>
      if negb (isValidPath path) then Some ("invalid upload path: " +:+ path)
      else if negb (fileExists path) then Some ("file doesn't exist: " +:+ path)
      else validateUploads rest
  end.

(** [validateOnboardFlags()], by the message of the error it returns;
    [visit] is the order in which [range] goes through the keys of
    [uploads]. *)
Definition validateOnboardFlags (visit : list string) : option string :=
  if negb (slices_Contains validCipherSuites cipherSuite)
  then Some ("invalid cipher suite: " +:+ cipherSuite)
  else if negb (String.eqb dlDir "") && (negb (isValidPath dlDir) || negb (fileExists dlDir))
  then Some ("invalid download directory: " +:+ dlDir)
  else
    match validateDiKey with
    | Some err => Some err
    | None =>
        if negb (slices_Contains validKexSuites kexSuite)
        then Some ("invalid key exchange suite: '" +:+ kexSuite +:+ "', options ["
                   +:+ gostrings.Join validKexSuites ", " +:+ "]")
        else
          match validateUploads visit with
          | Some err => Some err
          | None =>
              if negb (String.eqb wgetDir "")
                 && (negb (isValidPath wgetDir) || negb (fileExists wgetDir))
              then Some ("invalid wget directory: " +:+ wgetDir)
              else None
          end
    end.

(** [printDeviceStatus(status)]: the debug message, if any. *)
Definition printDeviceStatus (status : FdoDeviceState) : option string :=
  match status with
  | FDO_STATE_PRE_DI => Some "Device is ready for DI"
  | FDO_STATE_PRE_TO1 => Some "Device is ready for Ownership transfer"
  | FDO_STATE_IDLE => Some "Device Ownership transfer Done"
  | FDO_STATE_RESALE => Some "Device is ready for Ownership transfer"
  | FDO_STATE_ERROR => Some "Error in getting device status"
  | FDO_STATE_OTHER _ => None
  end.

Abbreviation CmdEvent := (cmdEvent DeviceCredential IP).

(** [RunE] from [loadDeviceStatus] on. *)
Definition runLoaded (ctx : Ctx) (w : World) : option runError * World * list CmdEvent :=
  match loadDeviceStatus w with
  | (inr err, w1) => (Some (LoadStatusError err), w1, [LoadStatus])
  | (inl deviceStatus, w1) =>
      let printed :=
        match printDeviceStatus deviceStatus with
        | Some msg => [DebugLog msg]
        | None => []
        end in
      let onboard :=
        let '(err, w2, log) := doOnboard ctx w1 in
        (match err with Some e => Some (OnboardError e) | None => None end,
         w2, LoadStatus :: printed ++ map Onboard log) in
      match deviceStatus with
      | FDO_STATE_PRE_TO1 => onboard
      | FDO_STATE_IDLE =>
          if resale then onboard
          else (None, w1,
                LoadStatus :: printed
                  ++ [Say "FDO in Idle State. Device Onboarding already completed"])
      | FDO_STATE_PRE_DI => (Some NotInitialized, w1, LoadStatus :: printed)
      | _ => (Some (InvalidState deviceStatus), w1, LoadStatus :: printed)
      end
  end.

(** The [RunE] of [onboardCmd]; [ctx] is the package's [clientContext]. *)
Definition RunE (ctx : Ctx) (visit : list string) (w : World)
  : option runError * World * list CmdEvent :=
  match validateOnboardFlags visit with
  | Some err => (Some (ValidationError err), w, [])
  | None =>
      let level := if debug then [SetDebugLevel] else [] in
      if negb (String.eqb tpmPath "") then
        match TpmOpen tpmPath w with
        | (Some err, w1) => (Some (TpmError err), w1, level ++ [OpenTpm tpmPath true])
        | (None, w1) =>
            let '(err, w2, log) := runLoaded ctx w1 in
            (err, TpmClose w2, level ++ OpenTpm tpmPath false :: log ++ [CloseTpm])
        end
      else
        let '(err, w1, log) := runLoaded ctx w in
        (err, w1, level ++ log)
  end.

End Command.

(** ** A laboratory

    Concrete collaborators to run the walkers on: the world counts the
    calls made so far; one rendezvous server answers, with a blob that
    names one owner; the owner answers or not. *)
Module Lab.

Definition blob : To1d string :=
  {| RV := [ {| IPAddress := Some "192.0.2.7"; DNSAddress := Some "owner.example";
                Port := 8443; TransportProtocol := protocol.HTTPSTransport |} ] |}.

Definition directives : list RvDirective :=
  [ {| URLs := ["http://down.example"]; Bypass := false; Delay := 5000000000 |};
    {| URLs := ["http://rv.example:8080"]; Bypass := false; Delay := 0 |} ].

Definition collaborators (ownerUp : bool) : Collaborators :=
  {| World := nat;
     DeviceCredential := string;
     IP := string;
     fdo_TO1 url _ w :=
       if String.eqb url "http://rv.example:8080" then (Some blob, false, S w)
       else (None, true, S w);
     fdo_TO2 url _ _ w :=
       if ownerUp && String.eqb url "https://owner.example:8443"
       then (Some "new-credential", false, S w)
       else (None, true, S w);
     net_LookupHost dns w := (String.eqb dns "owner.example", S w);
     IP_String ip := ip;
     net_ParseIP s := String.eqb s "192.0.2.7";
     awaitTimer _ w := (false, S w);
     readCred w := (inl ("old-credential", true), S w);
     updateCred _ w := (None, S w);
     cleanup w := S w;
     ParseDeviceRvInfo _ := directives;
     CipherSuiteByName name := if String.eqb name "A128GCM" then Some 1%N else None |}.

Definition flags : Flags :=
  {| cipherSuite := "A128GCM"; dlDir := "/data/downloads"; wgetDir := "";
     echoCmds := false; rvOnly := false; uploads := ∅ |}.

Definition conf : TO2Config string :=
  {| Cred := "old-credential"; DeviceModules := ∅ |}.

Definition cancelled : Ctx := {| doneAtEntry := true |}.
Definition live : Ctx := {| doneAtEntry := false |}.

End Lab.

(** More of the laboratory: rendezvous-only flags, a file system that
    holds the download directory and one upload, a device waiting for its
    owner and a TPM that opens. *)
Module Bench.

Definition flagsRvOnly : Flags :=
  {| cipherSuite := "A128GCM"; dlDir := "/data/downloads"; wgetDir := "";
     echoCmds := false; rvOnly := true; uploads := ∅ |}.

Definition flagsUpload : Flags :=
  {| cipherSuite := "A128GCM"; dlDir := "/data/downloads"; wgetDir := "";
     echoCmds := true; rvOnly := false;
     uploads := {[ "reports" := "/home/user/reports" ]} |}.

Definition host : Host :=
  {| os_Stat path :=
       if String.eqb path "/data/downloads" || String.eqb path "reports"
       then StatOk else StatNotExist;
     isValidPath path := negb (String.eqb path "");
     validateDiKey := None |}.

Definition commandFlags : CommandFlags :=
  {| kexSuite := "ECDH256"; resale := false; debug := true; tpmPath := "/dev/tpmrm0" |}.

Definition device (ownerUp : bool) (status : FdoDeviceState)
  : @Device (Lab.collaborators ownerUp) :=
  @Build_Device (Lab.collaborators ownerUp)
    (λ w : nat, (inl status, S w))
    (λ _ (w : nat), (None, S w))
    (λ w : nat, S w).

Definition bypassDirectives : list RvDirective :=
  [ {| URLs := ["https://owner.example:8443"; "https://192.0.2.7:8443"];
       Bypass := true; Delay := 5000000000 |} ].

End Bench.

(** * Facts about paths *)

Section PathFacts.

Implicit Types (s t e : string) (cs : list string) (c : ascii).

(** [Clean] gives what the library's byte loop gives, on every string of
    at most eight bytes over a slash, a dot and a letter. *)
Lemma Clean_agrees_with_library_loop :
  Forall (λ n,
            forallb (λ p, String.eqb (filepath.Clean p) (filepath.CleanBytes p))
              (filepath.wordsOfLength ["/"%char; "."%char; "a"%char] n) = true)
    (seq 0 9).
Proof. repeat constructor; by vm_compute. Qed.

(** The library's documented examples. *)
Lemma Clean_table :
  Forall (λ '(path, cleaned), filepath.Clean path = cleaned)
    [ ("abc", "abc"); ("abc/def", "abc/def"); (".", "."); ("..", "..");
      ("../..", "../.."); ("../../abc", "../../abc"); ("/abc", "/abc"); ("/", "/");
      ("", "."); ("abc/", "abc"); ("./", "."); ("../", ".."); ("/abc/", "/abc");
      ("abc//def//ghi", "abc/def/ghi"); ("abc/./def", "abc/def");
      ("/./abc/def", "/abc/def"); ("abc/.", "abc");
      ("abc/def/ghi/../jkl", "abc/def/jkl"); ("abc/def/../ghi/../jkl", "abc/jkl");
      ("abc/def/..", "abc"); ("abc/def/../..", "."); ("/abc/def/../..", "/");
      ("abc/def/../../..", ".."); ("/abc/def/../../..", "/");
      ("abc/def/../../../ghi/jkl/../../../mno", "../../mno"); ("/../abc", "/abc");
      ("abc/./../def", "def"); ("abc/../../././../def", "../../def") ].
Proof. repeat constructor. Qed.

Lemma Base_Dir_table :
  Forall (λ '(path, base, dir), filepath.Base path = base ∧ filepath.Dir path = dir)
    [ ("", ".", "."); (".", ".", "."); ("/", "/", "/"); ("////", "/", "/");
      ("/a", "a", "/"); ("a", "a", "."); ("a/b", "b", "a"); ("a/b/", "b", "a/b");
      ("/foo/bar/baz.js", "baz.js", "/foo/bar"); ("../..", "..", "..");
      ("dev.txt", "dev.txt", ".") ].
Proof. repeat constructor. Qed.

Lemma Join_table :
  filepath.Join ["a"; "b"; "c"] = "a/b/c"
  ∧ filepath.Join ["a"; "../../xyz"] = "../xyz"
  ∧ filepath.Join [""; ""; "a"; ""] = "a"
  ∧ filepath.Join [] = ""
  ∧ filepath.Join ["/data/downloads"; "../../etc/passwd"] = "/etc/passwd".
Proof. by repeat split. Qed.

Lemma ValidPath_table :
  Forall (λ '(path, valid), iofs.ValidPath path = valid)
    [ (".", true); ("x", true); ("x/y", true); ("uploads/reports/q1.csv", true);
      ("", false); ("..", false); ("/", false); ("x/", false); ("/x", false);
      ("x//y", false); ("./x", false); ("x/../y", false); ("/etc/shadow", false);
      (String "255" "", false); (String "195" (String "169" ""), true) ].
Proof. repeat constructor. Qed.

Lemma sapp_cons c s t : String c s +:+ t = String c (s +:+ t).
Proof. reflexivity. Qed.

Lemma sapp_nil_l t : "" +:+ t = t.
Proof. reflexivity. Qed.

Lemma sapp_nil_r s : s +:+ "" = s.
Proof. induction s as [|c s IH]; [done|]. by rewrite sapp_cons, IH. Qed.

Lemma sapp_assoc s t u : (s +:+ t) +:+ u = s +:+ (t +:+ u).
Proof. induction s as [|c s IH]; [done|]. by rewrite !sapp_cons, IH. Qed.

Lemma hasSep_app s t : hasSep (s +:+ t) = hasSep s || hasSep t.
Proof.
  induction s as [|c s IH]; [done|].
  rewrite sapp_cons. simpl. rewrite IH. by rewrite orb_assoc.
Qed.

Lemma Split_nonempty s : gostrings.Split s ≠ [].
Proof.
  destruct s as [|c s]; simpl; [done|].
  destruct (isSep c); [done|]. by destruct (gostrings.Split s).
Qed.

(** Joining the pieces of a split gives the string back. *)
Lemma Join_Split s : gostrings.Join (gostrings.Split s) "/" = s.
Proof.
  induction s as [|c s IH]; [done|].
  simpl. destruct (isSep c) eqn:Hc.
  - apply Ascii.eqb_eq in Hc as ->.
    pose proof (Split_nonempty s) as Hne.
    simpl. destruct (gostrings.Split s) as [|e es] eqn:E; [done|].
    by rewrite IH.
  - pose proof (Split_nonempty s) as Hne.
    destruct (gostrings.Split s) as [|e es] eqn:E; [done|].
    simpl in *. destruct es as [|e' es].
    + by rewrite IH.
    + rewrite sapp_cons. by rewrite IH.
Qed.

Lemma Split_nosep e : hasSep e = false → gostrings.Split e = [e].
Proof.
  induction e as [|c e IH]; [done|].
  simpl. intros [Hc He]%orb_false_elim. rewrite Hc, (IH He). done.
Qed.

Lemma Split_app_sep e s :
  hasSep e = false → gostrings.Split (e +:+ "/" +:+ s) = e :: gostrings.Split s.
Proof.
  induction e as [|c e IH]; [done|].
  intros H. cbn [hasSep] in H. apply orb_false_elim in H as [Hc He].
  rewrite (sapp_cons c e). cbn [gostrings.Split]. rewrite Hc, (IH He). done.
Qed.

(** Splitting a join of slash-free pieces gives the pieces back. *)
Lemma Split_Join cs :
  cs ≠ [] → Forall (λ e, hasSep e = false) cs →
  gostrings.Split (gostrings.Join cs "/") = cs.
Proof.
  induction cs as [|e cs IH]; [done|]. intros _ Hall.
  apply Forall_cons in Hall as [He Hcs].
  destruct cs as [|e' cs]; [by apply Split_nosep|].
  change (gostrings.Join (e :: e' :: cs) "/")
    with (e +:+ "/" +:+ gostrings.Join (e' :: cs) "/").
  rewrite Split_app_sep by done. by rewrite IH.
Qed.

Lemma Split_elems_nosep s : Forall (λ e, hasSep e = false) (gostrings.Split s).
Proof.
  induction s as [|c s IH]; [by repeat constructor|].
  simpl. destruct (isSep c) eqn:Hc; [by constructor|].
  destruct (gostrings.Split s) as [|e es]; [repeat constructor; simpl; by rewrite Hc|].
  apply Forall_cons in IH as [He Hes]. constructor; [|done].
  simpl. by rewrite Hc, He.
Qed.

Lemma Join_snoc cs e :
  cs ≠ [] → gostrings.Join (cs ++ [e]) "/" = gostrings.Join cs "/" +:+ "/" +:+ e.
Proof.
  induction cs as [|x cs IH]; [done|]. intros _.
  destruct cs as [|y cs]; [done|].
  change (gostrings.Join ((x :: y :: cs) ++ [e]) "/")
    with (x +:+ "/" +:+ gostrings.Join ((y :: cs) ++ [e]) "/").
  rewrite IH by done.
  change (gostrings.Join (x :: y :: cs) "/")
    with (x +:+ "/" +:+ gostrings.Join (y :: cs) "/").
  by rewrite !sapp_assoc.
Qed.

Lemma Join_app cs1 cs2 :
  cs1 ≠ [] → cs2 ≠ [] →
  gostrings.Join (cs1 ++ cs2) "/"
  = gostrings.Join cs1 "/" +:+ "/" +:+ gostrings.Join cs2 "/".
Proof.
  intros H1 H2. revert cs1 H1.
  induction cs2 as [|e cs2 IH] using rev_ind; [done|]. intros cs1 H1.
  destruct cs2 as [|y cs2].
  - by apply Join_snoc.
  - rewrite app_assoc. rewrite Join_snoc by (by destruct cs1).
    rewrite IH by done. rewrite (Join_snoc (y :: cs2)) by done.
    by rewrite !sapp_assoc.
Qed.

Lemma uptoLastSep_nosep e : hasSep e = false → filepath.uptoLastSep e = "".
Proof.
  destruct e as [|c e]; [done|]. simpl.
  intros [Hc He]%orb_false_elim. by rewrite Hc, He.
Qed.

Lemma uptoLastSep_app s e :
  hasSep e = false → filepath.uptoLastSep (s +:+ "/" +:+ e) = s +:+ "/".
Proof.
  intros He. induction s as [|c s IH].
  - rewrite !sapp_nil_l. change ("/" +:+ e) with (String "/" e).
    cbn [filepath.uptoLastSep]. by rewrite (uptoLastSep_nosep _ He).
  - rewrite (sapp_cons c s). cbn [filepath.uptoLastSep]. rewrite IH.
    rewrite hasSep_app. change ("/" +:+ e) with (String "/" e).
    cbn [hasSep]. change (isSep "/") with true. by rewrite !orb_true_r.
Qed.

Lemma validElem_inv e :
  iofs.validElem e = true → e ≠ "" ∧ e ≠ "." ∧ e ≠ "..".
Proof.
  unfold iofs.validElem. rewrite negb_true_iff, !orb_false_iff.
  intros [[H1 H2] H3]. by rewrite !String.eqb_neq in *.
Qed.

Lemma cleanElem_good rooted out e :
  iofs.validElem e = true → filepath.cleanElem rooted out e = e :: out.
Proof.
  intros (H1 & H2 & H3)%validElem_inv. unfold filepath.cleanElem.
  apply String.eqb_neq in H1, H2, H3. by rewrite H1, H2, H3.
Qed.

Lemma fold_cleanElem_good rooted cs out :
  Forall goodElem cs →
  fold_left (filepath.cleanElem rooted) cs out = rev cs ++ out.
Proof.
  intros Hcs. revert out. induction Hcs as [|e cs [He _] _ IH]; intros out; [done|].
  cbn [fold_left rev]. rewrite cleanElem_good by done. rewrite IH.
  by rewrite <- app_assoc.
Qed.

Lemma Join_cons e cs :
  gostrings.Join (e :: cs) "/"
  = e +:+ match cs with [] => "" | _ :: _ => "/" +:+ gostrings.Join cs "/" end.
Proof. destruct cs; [by rewrite sapp_nil_r|done]. Qed.

(** A join of good elements is a non-empty relative path. *)
Lemma Join_good_head cs :
  cs ≠ [] → Forall goodElem cs →
  ∃ c s, gostrings.Join cs "/" = String c s ∧ isSep c = false.
Proof.
  destruct cs as [|e cs]; [done|]. intros _ [[He Hs] _]%Forall_cons.
  apply validElem_inv in He as [He _]. rewrite Join_cons.
  destruct e as [|c e]; [done|]. rewrite sapp_cons. eexists _, _. split; [done|].
  cbn [hasSep] in Hs. by apply orb_false_elim in Hs as [-> _].
Qed.

Lemma goodElems_nosep cs : Forall goodElem cs → Forall (λ e, hasSep e = false) cs.
Proof. intros H. eapply Forall_impl; [exact H|]. by intros e [_ ?]. Qed.

Lemma Join_good_neq cs :
  cs ≠ [] → Forall goodElem cs →
  gostrings.Join cs "/" ≠ "/" ∧ gostrings.Join cs "/" ≠ ".".
Proof.
  intros Hne Hcs.
  pose proof (Split_Join cs Hne (goodElems_nosep _ Hcs)) as HS.
  split; intros E; rewrite E in HS; cbn in HS; subst cs.
  - apply Forall_cons in Hcs as [[He _] _]. done.
  - apply Forall_cons in Hcs as [[He _] _]. done.
Qed.

Lemma Clean_Join_good cs :
  cs ≠ [] → Forall goodElem cs →
  filepath.Clean (gostrings.Join cs "/") = gostrings.Join cs "/".
Proof.
  intros Hne Hcs. unfold filepath.Clean.
  destruct (Join_good_head cs Hne Hcs) as (c & s & E & Hc).
  rewrite Split_Join by auto using goodElems_nosep.
  rewrite fold_cleanElem_good, app_nil_r, rev_involutive by done.
  rewrite E. cbn [String.eqb gostrings.HasPrefixSep]. by rewrite Hc.
Qed.

Lemma Clean_Join_trailing cs :
  cs ≠ [] → Forall goodElem cs →
  filepath.Clean (gostrings.Join cs "/" +:+ "/") = gostrings.Join cs "/".
Proof.
  intros Hne Hcs. unfold filepath.Clean.
  destruct (Join_good_head cs Hne Hcs) as (c & s & E & Hc).
  assert (gostrings.Split (gostrings.Join cs "/" +:+ "/") = cs ++ [""]) as ->.
  { rewrite <- (Split_Join (cs ++ [""])).
    - rewrite Join_snoc by done. reflexivity.
    - by destruct cs.
    - apply Forall_app. split; [by apply goodElems_nosep|].
      constructor; [reflexivity|constructor]. }
  rewrite fold_left_app, (fold_cleanElem_good _ cs) by done.
  cbn [fold_left]. rewrite app_nil_r.
  change (filepath.cleanElem _ (rev cs) "") with (rev cs).
  rewrite rev_involutive, E, sapp_cons.
  cbn [String.eqb gostrings.HasPrefixSep]. by rewrite Hc.
Qed.

(** The directory of a relative path of good elements is the path
    without its last element, and the dot for a single element. *)
Lemma Dir_Join cs e :
  Forall goodElem cs → goodElem e →
  filepath.Dir (gostrings.Join (cs ++ [e]) "/")
  = match cs with [] => "." | _ :: _ => gostrings.Join cs "/" end.
Proof.
  intros Hcs [_ He]. unfold filepath.Dir. destruct cs as [|x cs].
  - cbn [app gostrings.Join]. by rewrite uptoLastSep_nosep.
  - rewrite Join_snoc, uptoLastSep_app by done.
    by apply Clean_Join_trailing.
Qed.

Lemma Split_length s : length (gostrings.Split s) ≤ S (String.length s).
Proof.
  induction s as [|c s IH]; [done|].
  cbn [gostrings.Split String.length]. destruct (isSep c).
  - cbn [length]. lia.
  - destruct (gostrings.Split s); cbn [length] in *; lia.
Qed.

(** The ancestor walk over a relative path of good elements none of
    whose non-empty prefixes is registered ends without a match. *)
Lemma walkUp_unregistered (files : gmap string string) cs fuel :
  Forall goodElem cs → length cs < fuel →
  (∀ k, 0 < k → k ≤ length cs → files !! gostrings.Join (take k cs) "/" = None) →
  walkUp fuel files (match cs with [] => "." | _ :: _ => gostrings.Join cs "/" end)
  = Some None.
Proof.
  revert fuel. induction cs as [|e cs IH] using rev_ind; intros fuel Hcs Hfuel Hreg.
  - destruct fuel; [cbn in Hfuel; lia|done].
  - apply Forall_app in Hcs as [Hcs [He _]%Forall_cons].
    rewrite length_app in Hfuel. cbn [length] in Hfuel.
    destruct fuel as [|fuel]; [lia|].
    assert (cs ++ [e] ≠ []) as Hne by (by destruct cs).
    assert (Forall goodElem (cs ++ [e])) as Hall
      by (apply Forall_app; split; [done|by apply Forall_singleton]).
    destruct (Join_good_neq _ Hne Hall) as [N1 N2].
    replace (match cs ++ [e] with [] => "." | _ :: _ => gostrings.Join (cs ++ [e]) "/" end)
      with (gostrings.Join (cs ++ [e]) "/") by (by destruct cs).
    cbn [walkUp]. apply String.eqb_neq in N1, N2. rewrite N1, N2. cbn [orb].
    specialize (Hreg (length (cs ++ [e]))) as Hfull.
    rewrite firstn_all in Hfull. rewrite Hfull by (rewrite length_app; cbn; lia).
    rewrite Dir_Join by done. apply IH; [done|lia|].
    intros k Hk1 Hk2. specialize (Hreg k Hk1).
    rewrite take_app_le in Hreg by done. apply Hreg. rewrite length_app. lia.
Qed.

End PathFacts.

(** * The upload file system *)

Section OpenFacts.

Implicit Types (files : gmap string string) (path name : string).

Lemma ValidPath_elems path :
  iofs.ValidPath path = true → path ≠ "." →
  Forall goodElem (gostrings.Split path).
Proof.
  unfold iofs.ValidPath. intros [_ H]%andb_true_iff Hdot.
  apply orb_true_iff in H as [H|H]; [by apply String.eqb_eq in H|].
  rewrite forallb_forall in H.
  pose proof (Split_elems_nosep path) as Hsep.
  rewrite Forall_forall in *. intros e He. split; [|by apply Hsep].
  apply H. by apply list_elem_of_In.
Qed.

Lemma Clean_valid path :
  iofs.ValidPath path = true → filepath.Clean path = path.
Proof.
  intros Hv. destruct (decide (path = ".")) as [->|Hdot]; [done|].
  pose proof (Clean_Join_good _ (Split_nonempty path) (ValidPath_elems _ Hv Hdot)) as H.
  by rewrite Join_Split in H.
Qed.

(** The logical name of a well-formed request is the request itself,
    and the empty name for the dot. *)
Lemma pathToName_valid path :
  iofs.ValidPath path = true →
  pathToName path "" = Some (if String.eqb path "." then "" else path).
Proof.
  intros Hv. destruct (String.eqb_spec path ".") as [->|Hdot]; [done|].
  pose proof (ValidPath_elems _ Hv Hdot) as Hcs.
  pose proof (Split_nonempty path) as Hne.
  destruct (Join_good_head _ Hne Hcs) as (c & s & E & Hc).
  rewrite Join_Split in E. unfold pathToName.
  rewrite (Clean_valid _ Hv). rewrite E at 1. rewrite Hc.
  destruct (gostrings.Split path) as [|e es] eqn:Es; [done|].
  apply Forall_cons in Hcs as Hcs'. destruct Hcs' as [[He _] _].
  apply validElem_inv in He as (He1 & He2 & He3).
  apply String.eqb_neq in He1, He2, He3.
  cbn [dropDots]. rewrite He2, He3. cbn [orb length Nat.eqb andb filepath.Join].
  rewrite He1, <- Es, Join_Split. by rewrite (Clean_valid _ Hv).
Qed.

(** On a well-formed request the ancestor walk finishes within its
    budget, and finds nothing when no ancestor is registered. *)
Lemma walkUp_valid files path :
  iofs.ValidPath path = true → path ≠ "." →
  (∀ dir rest, path = dir +:+ "/" +:+ rest → files !! dir = None) →
  walkUp (S (String.length path)) files (filepath.Dir path) = Some None.
Proof.
  intros Hv Hdot Hreg.
  pose proof (ValidPath_elems _ Hv Hdot) as Hcs.
  pose proof (Split_nonempty path) as Hne.
  pose proof (Split_length path) as Hlen.
  pose proof (Join_Split path) as HJ.
  destruct (gostrings.Split path) as [|e cs _] using rev_ind; [done|].
  apply Forall_app in Hcs as [Hcs [He _]%Forall_cons].
  rewrite length_app in Hlen. cbn [length] in Hlen.
  rewrite <- HJ at 2. rewrite Dir_Join by done.
  apply walkUp_unregistered; [done|lia|].
  intros k Hk1 Hk2. apply (Hreg _ (gostrings.Join (drop k cs ++ [e]) "/")).
  rewrite <- HJ, <- (take_drop k cs) at 1. rewrite <- app_assoc.
  apply Join_app.
  - intros E. apply (f_equal length) in E. rewrite length_take in E. cbn in E. lia.
  - by destruct (drop k cs).
Qed.

(** On a well-formed request the ancestor walk always finishes within
    its budget. *)
Lemma walkUp_good_total files cs fuel :
  Forall goodElem cs → length cs < fuel →
  is_Some (walkUp fuel files
             (match cs with [] => "." | _ :: _ => gostrings.Join cs "/" end)).
Proof.
  revert fuel. induction cs as [|e cs IH] using rev_ind; intros fuel Hcs Hfuel.
  - destruct fuel; [cbn in Hfuel; lia|]. by eexists.
  - apply Forall_app in Hcs as [Hcs [He _]%Forall_cons].
    rewrite length_app in Hfuel. cbn [length] in Hfuel.
    destruct fuel as [|fuel]; [lia|].
    assert (cs ++ [e] ≠ []) as Hne by (by destruct cs).
    assert (Forall goodElem (cs ++ [e])) as Hall
      by (apply Forall_app; split; [done|by apply Forall_singleton]).
    destruct (Join_good_neq _ Hne Hall) as [N1 N2].
    replace (match cs ++ [e] with [] => "." | _ :: _ => gostrings.Join (cs ++ [e]) "/" end)
      with (gostrings.Join (cs ++ [e]) "/") by (by destruct cs).
    cbn [walkUp]. apply String.eqb_neq in N1, N2. rewrite N1, N2. cbn [orb].
    destruct (files !! gostrings.Join (cs ++ [e]) "/"); [by eexists|].
    rewrite Dir_Join by done. apply IH; [done|lia].
Qed.

(** [Open] always returns: no request makes it panic or run out of its
    iteration budget. *)
Lemma Open_total files path : is_Some (Open files path).
Proof.
  unfold Open. destruct (iofs.ValidPath path) eqn:Hv; [|by eexists].
  cbn [negb]. destruct (files !! "/"); [by eexists|].
  rewrite pathToName_valid by done. cbn [mbind option_bind].
  destruct (String.eqb_spec path ".") as [->|Hdot].
  - destruct (files !! ""); by eexists.
  - destruct (files !! path); [by eexists|].
    pose proof (ValidPath_elems _ Hv Hdot) as Hcs.
    pose proof (Split_nonempty path) as Hne.
    pose proof (Split_length path) as Hlen.
    pose proof (Join_Split path) as HJ.
    destruct (gostrings.Split path) as [|e cs _] using rev_ind; [done|].
    apply Forall_app in Hcs as [Hcs [He _]%Forall_cons].
    rewrite length_app in Hlen. cbn [length] in Hlen.
    rewrite <- HJ at 2. rewrite Dir_Join by done.
    destruct (walkUp_good_total files cs (S (String.length path)) Hcs) as [r ->]; [lia|].
    destruct r; by eexists.
Qed.

(** A registered directory answers for what lies below it: [Open] hands
    the registered path itself to the operating system. *)
Lemma Open_ancestor_example :
  Open {[ "uploads/reports" := "/home/user/reports" ]} "uploads/reports/q1.csv"
  = Some (OsOpen "/home/user/reports").
Proof. by vm_compute. Qed.

Lemma ValidPath_rooted path : iofs.ValidPath (String "/" path) = false.
Proof. unfold iofs.ValidPath. apply andb_false_intro2. by destruct path. Qed.

Lemma ValidPath_dotdot path :
  iofs.ValidPath ".." = false ∧ iofs.ValidPath ("../" +:+ path) = false.
Proof.
  split; [done|]. unfold iofs.ValidPath. apply andb_false_intro2.
  change ("../" +:+ path) with (".." +:+ "/" +:+ path).
  rewrite Split_app_sep by done. by destruct path.
Qed.

End OpenFacts.

(** C2 (as amended).  Without the root passthrough, [Open] answers
    not-found to every well-formed request whose logical name is not
    registered and none of whose ancestor directories (the prefixes of the
    name that end before a slash) is registered.  The absolute path
    [/etc/shadow] is not well-formed: for every mapping it gets the
    invalid-path error, not not-found. *)
Theorem Open_unregistered_not_found (files : gmap string string) (path name : string) :
  files !! "/" = None →
  iofs.ValidPath path = true →
  pathToName path "" = Some name →
  files !! name = None →
  (∀ dir rest, name = dir +:+ "/" +:+ rest → files !! dir = None) →
  Open files path = Some (notFound path)
  ∧ Open files "/etc/shadow" = Some (invalidPath "/etc/shadow").
Proof.
  intros Hroot Hv Hname Hreg Hanc. split; [|done].
  unfold Open. rewrite Hv, Hroot, Hname. cbn [negb mbind option_bind].
  rewrite Hreg. rewrite pathToName_valid in Hname by done.
  destruct (String.eqb_spec path ".") as [->|Hdot].
  - by injection Hname as <-.
  - injection Hname as <-. by rewrite walkUp_valid.
Qed.

(** C2, the claim as stated fails: with nothing registered, [/etc/shadow]
    gets the invalid-path error. *)
Lemma Open_etc_shadow_not_notfound :
  (∅ : gmap string string) !! "/" = None
  ∧ Open ∅ "/etc/shadow" = Some (invalidPath "/etc/shadow")
  ∧ Open ∅ "/etc/shadow" ≠ Some (notFound "/etc/shadow").
Proof. by repeat split. Qed.

(** C2 on a mapping with one registered directory and a request beside
    it. *)
Lemma Open_unregistered_not_found_witness :
  Open {[ "uploads/reports" := "/home/user/reports" ]} "uploads/other/q1.csv"
  = Some (notFound "uploads/other/q1.csv")
  ∧ Open {[ "uploads/reports" := "/home/user/reports" ]} "/etc/shadow"
    = Some (invalidPath "/etc/shadow").
Proof.
  apply (Open_unregistered_not_found _ _ "uploads/other/q1.csv"); try reflexivity.
  intros dir rest E. apply lookup_singleton_ne. intros <-. vm_compute in E. discriminate E.
Defined.

(** C9.  [Open] checks the request before it looks at the mapping: a path
    that is not well-formed gets the invalid-path error whatever is
    registered, the root passthrough included.  Rooted paths and paths
    that start with a [..] element are not well-formed. *)
Theorem Open_validates_before_passthrough (files : gmap string string) (path : string) :
  (iofs.ValidPath path = false → Open files path = Some (invalidPath path))
  ∧ Open files (String "/" path) = Some (invalidPath (String "/" path))
  ∧ Open files ".." = Some (invalidPath "..")
  ∧ Open files ("../" +:+ path) = Some (invalidPath ("../" +:+ path)).
Proof.
  assert (∀ p, iofs.ValidPath p = false → Open files p = Some (invalidPath p)) as H.
  { intros p Hp. unfold Open. by rewrite Hp. }
  split; [|split; [|split]].
  - apply H.
  - apply H, ValidPath_rooted.
  - apply H. reflexivity.
  - apply H, (proj2 (ValidPath_dotdot path)).
Qed.

(** C9 with the root passthrough registered and a request that climbs. *)
Lemma Open_validates_before_passthrough_witness :
  ({[ "/" := "/" ]} : gmap string string) !! "/" = Some "/"
  ∧ iofs.ValidPath "a/../../etc/shadow" = false
  ∧ Open {[ "/" := "/" ]} "a/../../etc/shadow"
    = Some (invalidPath "a/../../etc/shadow").
Proof.
  split; [reflexivity|]. split; [reflexivity|].
  apply (proj1 (Open_validates_before_passthrough {[ "/" := "/" ]} "a/../../etc/shadow")).
  reflexivity.
Defined.

(** C1.  The containment the closures aim at fails for a relative name
    that climbs: [../../etc/passwd] under [/data/downloads] resolves to
    [/etc/passwd], outside the directory, where the claim promises
    [/data/downloads/passwd].  An absolute name is reduced to its base
    name and stays inside.  The download module is built with this
    closure whenever a download directory is set, and so is the wget
    module. *)
Theorem NameToPath_relative_escapes :
  NameToPath "/data/downloads" "../../etc/passwd" = "/etc/passwd"
  ∧ NameToPath "/data/downloads" "../../etc/passwd" ≠ "/data/downloads/passwd"
  ∧ insideDir "/data/downloads" (NameToPath "/data/downloads" "../../etc/passwd") = false
  ∧ NameToPath "/data/downloads" "/etc/passwd" = "/data/downloads/passwd"
  ∧ @deviceModules Lab.flags !! "fdo.download" = Some (Download "/data/downloads")
  ∧ moduleNameToPath (Download "/data/downloads") = Some (NameToPath "/data/downloads")
  ∧ moduleNameToPath (Wget "/data/downloads") = Some (NameToPath "/data/downloads").
Proof. repeat split; by vm_compute. Qed.

(** * The walkers *)

Section OnboardFacts.

Context `{Collaborators, Flags}.

Implicit Types (w : World) (conf : TO2Config DeviceCredential).
Implicit Types (to1d : option (To1d IP)) (log : list (event DeviceCredential IP)).
Implicit Types (urls acc : list string) (directives : list RvDirective).

(** Runs one collaborator call or [select] of the goal. *)
Ltac call :=
  match goal with
  | |- context [fdo_TO1 ?u ?c ?w] => destruct (fdo_TO1 u c w) as [[? []] ?] eqn:?
  | |- context [fdo_TO2 ?u ?b ?c ?w] => destruct (fdo_TO2 u b c w) as [[? []] ?] eqn:?
  | |- context [net_LookupHost ?d ?w] => destruct (net_LookupHost d w) as [[] ?] eqn:?
  | |- context [awaitTimer ?d ?w] => destruct (awaitTimer d w) as [[] ?] eqn:?
  end.

(** Names the result of a sub-walk of the goal. *)
Ltac sub :=
  let E := fresh "E" in
  match goal with
  | |- context [to1URLs ?c ?u ?b ?w] => destruct (to1URLs c u b w) as [[[? ?] ?] ?] eqn:E
  | |- context [to1Walk ?x ?c ?d ?b ?w] => destruct (to1Walk x c d b w) as [[? ?] ?] eqn:E
  | |- context [blobURLs ?a ?u ?w] => destruct (blobURLs a u w) as [[? ?] ?] eqn:E
  | |- context [addrURLs ?a ?u ?w] => destruct (addrURLs a u w) as [[? ?] ?] eqn:E
  | |- context [to2Walk ?u ?b ?c ?w] => destruct (to2Walk u b c w) as [[? ?] ?] eqn:E
  end.

Lemma to1Calls_app log1 log2 : to1Calls (log1 ++ log2) = to1Calls log1 ++ to1Calls log2.
Proof. apply omap_app. Qed.

Lemma to1Calls_cons e log :
  to1Calls (e :: log)
  = match e with CallTO1 url failed => [(url, failed)] | _ => [] end ++ to1Calls log.
Proof. by destruct e. Qed.

Lemma to2Attempts_app log1 log2 :
  to2Attempts (log1 ++ log2) = to2Attempts log1 ++ to2Attempts log2.
Proof. apply omap_app. Qed.

Lemma to2Attempts_cons e log :
  to2Attempts (e :: log)
  = match e with
    | CallTO2 url cred failed => [(url, if failed then None else cred)]
    | _ => []
    end ++ to2Attempts log.
Proof. by destruct e. Qed.

(** Reads the attempts off a log built from known pieces. *)
Ltac logs :=
  repeat first
    [ rewrite to1Calls_app | rewrite to1Calls_cons
    | rewrite to2Attempts_app | rewrite to2Attempts_cons ];
  change (to1Calls []) with (@nil (string * bool));
  change (to2Attempts []) with (@nil (string * option DeviceCredential));
  cbn [app]; rewrite ?app_nil_r.

Lemma appendURLs_app acc urls : appendURLs acc urls = acc ++ urls.
Proof.
  unfold appendURLs. revert acc.
  induction urls as [|u urls IH]; intros acc; cbn [fold_left].
  - by rewrite app_nil_r.
  - by rewrite IH, <- app_assoc.
Qed.

(** The first loop appends the URLs of the bypass directives, in
    order. *)
Lemma collectBypass_app directives acc :
  collectBypass directives acc = acc ++ bypassURLs directives.
Proof.
  revert acc. induction directives as [|d ds IH]; intros acc.
  - cbn. by rewrite app_nil_r.
  - unfold bypassURLs in *. cbn [collectBypass List.filter].
    destruct (Bypass d); cbn [negb flat_map].
    + by rewrite IH, appendURLs_app, <- app_assoc.
    + apply IH.
Qed.

Lemma allFailed_app urls1 urls2 :
  allFailed (urls1 ++ urls2) = allFailed urls1 ++ allFailed urls2.
Proof. apply map_app. Qed.

(** The inner rendezvous loop tries the URLs in order and leaves at the
    first attempt without error. *)
Lemma to1URLs_calls conf urls to1d w r w' log :
  to1URLs conf urls to1d w = (r, w', log) →
  if r.2
  then ∃ failed url rest,
      urls = failed ++ url :: rest ∧ to1Calls log = allFailed failed ++ [(url, false)]
  else to1Calls log = allFailed urls.
Proof.
  revert to1d w r w' log.
  induction urls as [|u urls IH]; intros to1d w r w' log.
  - intros [= <- <- <-]. done.
  - cbn [to1URLs]. unfold bind, callTO1, emit, ret. call; cbn [fst snd].
    + sub. intros [= <- <- <-].
      apply IH in E. cbn [snd] in E. destruct b.
      * destruct E as (failed & url & rest & -> & E).
        exists (u :: failed), url, rest. split; [done|].
        logs. by rewrite E.
      * logs. by rewrite E.
    + intros [= <- <- <-]. by exists [], u, urls.
Qed.

(** With no bypass directive the rendezvous URLs are all the URLs. *)
Lemma rendezvousURLs_all directives :
  Forall (λ d, Bypass d = false) directives →
  rendezvousURLs directives = flat_map URLs directives.
Proof.
  unfold rendezvousURLs. induction 1 as [|d ds Hd _ IH]; [done|].
  cbn [List.filter flat_map]. rewrite Hd. cbn [negb flat_map]. by rewrite IH.
Qed.

Lemma rendezvousURLs_cons d directives :
  rendezvousURLs (d :: directives)
  = (if Bypass d then [] else URLs d) ++ rendezvousURLs directives.
Proof. unfold rendezvousURLs. cbn [List.filter]. by destruct (Bypass d). Qed.

(** The rendezvous loop tries the URLs of the non-bypass directives in
    order and stops at the first attempt without error. *)
Lemma to1Walk_calls ctx conf directives to1d w out w' log :
  to1Walk ctx conf directives to1d w = (out, w', log) →
  ∃ failed rest,
    rendezvousURLs directives = failed ++ rest ∧
    match out with
    | Broke _ =>
        ∃ url rest', rest = url :: rest' ∧ to1Calls log = allFailed failed ++ [(url, false)]
    | Exhausted _ => rest = [] ∧ to1Calls log = allFailed failed
    | Cancelled => to1Calls log = allFailed failed
    end.
Proof.
  revert to1d w out w' log.
  induction directives as [|d ds IH]; intros to1d w out w' log.
  { intros [= <- <- <-]. by exists [], []. }
  cbn [to1Walk]. rewrite rendezvousURLs_cons.
  destruct (Bypass d); [apply IH|].
  unfold bind, ret. sub. apply to1URLs_calls in E. cbn [fst snd] in *.
  destruct b.
  - intros [= <- <- <-]. destruct E as (failed & url & rest & -> & E).
    exists failed, (url :: rest ++ rendezvousURLs ds). split.
    + by rewrite <- app_assoc.
    + exists url, (rest ++ rendezvousURLs ds). split; [done|]. logs. done.
  - assert (∀ wx mid r w1 l1,
              to1Walk ctx conf ds o wx = (r, w1, l1) → to1Calls mid = [] →
              ∃ failed rest, URLs d ++ rendezvousURLs ds = failed ++ rest ∧
              match r with
              | Broke _ => ∃ url rest', rest = url :: rest'
                  ∧ to1Calls (l ++ mid ++ l1) = allFailed failed ++ [(url, false)]
              | Exhausted _ => rest = [] ∧ to1Calls (l ++ mid ++ l1) = allFailed failed
              | Cancelled => to1Calls (l ++ mid ++ l1) = allFailed failed
              end) as Hrest.
    { intros wx mid r w1 l1 (failed & rest & Hds & Hr)%IH Hmid.
      exists (URLs d ++ failed), rest. rewrite Hds. split; [by rewrite app_assoc|].
      rewrite !to1Calls_app, E, Hmid, allFailed_app. cbn [app].
      destruct r.
      - by rewrite Hr.
      - destruct Hr as (url & rest' & -> & ->). exists url, rest'.
        by rewrite app_assoc.
      - destruct Hr as [-> ->]. done. }
    destruct (negb (Delay d =? 0)%Z).
    + unfold selectDone.
      destruct (doneAtEntry ctx && (0 <? Delay d)%Z).
      * intros [= <- <- <-]. exists (URLs d), (rendezvousURLs ds).
        split; [done|]. logs. done.
      * call.
        -- intros [= <- <- <-]. exists (URLs d), (rendezvousURLs ds).
           split; [done|]. logs. done.
        -- sub. intros [= <- <- <-].
           apply (Hrest _ [Suspend (Delay d) false] _ _ _ E0). done.
    + sub. intros [= <- <- <-]. apply (Hrest _ [] _ _ _ E0). done.
Qed.

(** The rendezvous loop over a list in two parts: the second part runs
    only when the first is exhausted. *)
Lemma to1Walk_app ctx conf ds1 ds2 to1d w :
  to1Walk ctx conf (ds1 ++ ds2) to1d w
  = let '(out, w1, log1) := to1Walk ctx conf ds1 to1d w in
    match out with
    | Exhausted to1d' =>
        let '(out2, w2, log2) := to1Walk ctx conf ds2 to1d' w1 in
        (out2, w2, log1 ++ log2)
    | _ => (out, w1, log1)
    end.
Proof.
  revert to1d w. induction ds1 as [|d ds1 IH]; intros to1d w.
  - cbn. by destruct (to1Walk ctx conf ds2 to1d w) as [[? ?] ?].
  - cbn [app to1Walk]. destruct (Bypass d); [apply IH|].
    unfold bind, ret. sub. cbn [fst snd]. destruct b; [by rewrite app_nil_r|].
    assert (∀ (pre : list (event DeviceCredential IP)) w0,
      (let '(b, w2, t2) := to1Walk ctx conf (ds1 ++ ds2) o w0 in (b, w2, pre ++ t2))
      = let '(out, w1, log1) :=
          (let '(b, w2, t2) := to1Walk ctx conf ds1 o w0 in (b, w2, pre ++ t2)) in
        match out with
        | Exhausted to1d' =>
            let '(out2, w2, log2) := to1Walk ctx conf ds2 to1d' w1 in
            (out2, w2, log1 ++ log2)
        | _ => (out, w1, log1)
        end) as Hrest.
    { intros pre w1. rewrite IH.
      destruct (to1Walk ctx conf ds1 o w1) as [[[]] ?]; [done|done|].
      destruct (to1Walk ctx conf ds2 to1d0 w2) as [[? ?] ?].
      by rewrite app_assoc. }
    destruct (negb (Delay d =? 0)%Z).
    + destruct (selectDone ctx (Delay d) w0) as [[[] ?] ?].
      * by rewrite app_nil_r.
      * rewrite Hrest.
        destruct (to1Walk ctx conf ds1 o w1) as [[[]] ?];
          rewrite ?app_assoc; try done.
        destruct (to1Walk ctx conf ds2 to1d0 w2) as [[? ?] ?].
        by rewrite !app_assoc.
    + rewrite Hrest.
      by destruct (to1Walk ctx conf ds1 o w0) as [[[]] ?].
Qed.

(** *** The stages keep to themselves *)

Lemma to1URLs_phase conf urls to1d w r w' log :
  to1URLs conf urls to1d w = (r, w', log) → Forall (λ e, phaseOf e = Rendezvous) log.
Proof.
  revert to1d w r w' log. induction urls as [|u urls IH]; intros to1d w r w' log.
  - intros [= <- <- <-]. constructor.
  - cbn [to1URLs]. unfold bind, callTO1, emit, ret. call; cbn [fst snd].
    + sub. intros [= <- <- <-]. apply IH in E. by repeat constructor.
    + intros [= <- <- <-]. by repeat constructor.
Qed.

Lemma to1Walk_phase ctx conf directives to1d w out w' log :
  to1Walk ctx conf directives to1d w = (out, w', log) →
  Forall (λ e, phaseOf e = Rendezvous) log.
Proof.
  revert to1d w out w' log.
  induction directives as [|d ds IH]; intros to1d w out w' log.
  - intros [= <- <- <-]. constructor.
  - cbn [to1Walk]. destruct (Bypass d); [apply IH|].
    unfold bind, ret. sub. apply to1URLs_phase in E. cbn [fst snd].
    destruct b; [intros [= <- <- <-]; by rewrite app_nil_r|].
    destruct (negb (Delay d =? 0)%Z).
    + unfold selectDone. destruct (doneAtEntry ctx && (0 <? Delay d)%Z).
      * intros [= <- <- <-]. apply Forall_app. by repeat constructor.
      * call.
        -- intros [= <- <- <-]. apply Forall_app. by repeat constructor.
        -- sub. intros [= <- <- <-]. apply IH in E0.
           apply Forall_app. split; [done|]. by repeat constructor.
    + sub. intros [= <- <- <-]. apply IH in E0. by apply Forall_app.
Qed.

Lemma schemeURLs_acc (a : RvTO2Addr IP) scheme port acc w :
  schemeURLs a scheme port acc w
  = let '(derived, w', log) := schemeURLs a scheme port [] w in
    (acc ++ derived, w', log).
Proof.
  unfold schemeURLs, bind, ret, isResolvableDNS.
  destruct (DNSAddress a); [call|]; (destruct (IPAddress a); [destruct (isValidIP _)|]);
    cbn [app]; rewrite ?app_nil_r, <- ?app_assoc. all: done.
Qed.

Lemma addrURLs_acc (a : RvTO2Addr IP) acc w :
  addrURLs a acc w
  = let '(derived, w', log) := addrURLs a [] w in (acc ++ derived, w', log).
Proof.
  unfold addrURLs.
  destruct (DNSAddress a) eqn:Hd, (IPAddress a) eqn:Hi, (TransportProtocol a);
    try apply schemeURLs_acc; unfold bind, emit, ret; cbn [app];
    by rewrite app_nil_r.
Qed.

(** The blob loop only appends to the candidate list. *)
Lemma blobURLs_acc (addrs : list (RvTO2Addr IP)) acc w :
  blobURLs addrs acc w
  = let '(derived, w', log) := blobURLs addrs [] w in (acc ++ derived, w', log).
Proof.
  revert acc w. induction addrs as [|a addrs IH]; intros acc w.
  - cbn. by rewrite app_nil_r.
  - cbn [blobURLs]. unfold bind. rewrite addrURLs_acc.
    destruct (addrURLs a [] w) as [[us w1] l1]. cbn [app].
    rewrite (IH (acc ++ us)), (IH us).
    destruct (blobURLs addrs [] w1) as [[vs w2] l2]. by rewrite app_assoc.
Qed.

Lemma blobURLs_app (pre post : list (RvTO2Addr IP)) acc w :
  blobURLs (pre ++ post) acc w
  = let '(urls1, w1, log1) := blobURLs pre acc w in
    let '(urls2, w2, log2) := blobURLs post urls1 w1 in
    (urls2, w2, log1 ++ log2).
Proof.
  revert acc w. induction pre as [|a pre IH]; intros acc w.
  - cbn. by destruct (blobURLs post acc w) as [[? ?] ?].
  - cbn [app blobURLs]. unfold bind.
    destruct (addrURLs a acc w) as [[us w1] l1]. rewrite IH.
    destruct (blobURLs pre us w1) as [[vs w2] l2].
    destruct (blobURLs post vs w2) as [[? ?] ?]. by rewrite app_assoc.
Qed.

Lemma addrURLs_phase (a : RvTO2Addr IP) acc w urls w' log :
  addrURLs a acc w = (urls, w', log) → Forall (λ e, phaseOf e = Resolution) log.
Proof.
  unfold addrURLs, schemeURLs, bind, emit, ret, isResolvableDNS.
  destruct (DNSAddress a), (IPAddress a), (TransportProtocol a);
    try call; try destruct (isValidIP _);
    intros [= <- <- <-]; by repeat constructor.
Qed.

Lemma blobURLs_phase (addrs : list (RvTO2Addr IP)) acc w urls w' log :
  blobURLs addrs acc w = (urls, w', log) → Forall (λ e, phaseOf e = Resolution) log.
Proof.
  revert acc w urls w' log. induction addrs as [|a addrs IH]; intros acc w urls w' log.
  - intros [= <- <- <-]. constructor.
  - cbn [blobURLs]. unfold bind. sub. apply addrURLs_phase in E.
    sub. apply IH in E0. intros [= <- <- <-]. by apply Forall_app.
Qed.

Lemma derivedURLs_phase to1d acc w urls w' log :
  derivedURLs to1d acc w = (urls, w', log) → Forall (λ e, phaseOf e = Resolution) log.
Proof.
  destruct to1d; [apply blobURLs_phase|]. intros [= <- <- <-]. constructor.
Qed.

Lemma to2Walk_phase urls to1d conf w newDC w' log :
  to2Walk urls to1d conf w = (newDC, w', log) → Forall (λ e, phaseOf e = Transfer) log.
Proof.
  revert w newDC w' log. induction urls as [|u urls IH]; intros w newDC w' log.
  - intros [= <- <- <-]. constructor.
  - cbn [to2Walk]. unfold bind, transferOwnership2, bind, callTO2, emit, ret.
    cbv zeta. call; cbn [fst snd].
    + sub. apply IH in E. intros [= <- <- <-]. by repeat constructor.
    + destruct o.
      * intros [= <- <- <-]. by repeat constructor.
      * sub. apply IH in E. intros [= <- <- <-]. by repeat constructor.
Qed.

Lemma to1Calls_other log :
  Forall (λ e, phaseOf e ≠ Rendezvous) log → to1Calls log = [].
Proof.
  induction 1 as [|e log He _ IH]; [done|].
  rewrite to1Calls_cons, IH. by destruct e.
Qed.

Lemma to2Attempts_other log :
  Forall (λ e, phaseOf e ≠ Transfer) log → to2Attempts log = [].
Proof.
  induction 1 as [|e log He _ IH]; [done|].
  rewrite to2Attempts_cons, IH. by destruct e.
Qed.

Lemma phase_other (p q : phase) log :
  p ≠ q → Forall (λ e, phaseOf e = p) log → Forall (λ e, phaseOf e ≠ q) log.
Proof. intros Hpq Hl. eapply Forall_impl; [exact Hl|]. by intros e ->. Qed.

Lemma phase_no_update (p : phase) log :
  p ≠ Storage → Forall (λ e, phaseOf e = p) log →
  Forall (λ e, isUpdateCred e = false) log.
Proof.
  intros Hp Hl. eapply Forall_impl; [exact Hl|].
  intros e He. destruct e; cbn in *; congruence.
Qed.

(** *** The transfer loop and the whole walk *)

Lemma noCredential_app urls1 urls2 :
  @noCredential DeviceCredential (urls1 ++ urls2)
  = noCredential urls1 ++ noCredential urls2.
Proof. apply map_app. Qed.

(** The transfer loop tries the candidates in order and leaves with the
    first credential. *)
Lemma to2Walk_attempts urls to1d conf w newDC w' log :
  to2Walk urls to1d conf w = (newDC, w', log) →
  match newDC with
  | Some dc =>
      ∃ tried url rest,
        urls = tried ++ url :: rest
        ∧ to2Attempts log = noCredential tried ++ [(url, Some dc)]
  | None => to2Attempts log = noCredential urls
  end.
Proof.
  revert w newDC w' log. induction urls as [|u urls IH]; intros w newDC w' log.
  - intros [= <- <- <-]. done.
  - assert (∀ w1 r w2 l2 (pre : list (event DeviceCredential IP)),
              to2Walk urls to1d conf w1 = (r, w2, l2) →
              to2Attempts pre = [(u, None)] →
              match r with
              | Some dc => ∃ tried url rest, u :: urls = tried ++ url :: rest
                  ∧ to2Attempts (pre ++ l2) = noCredential tried ++ [(url, Some dc)]
              | None => to2Attempts (pre ++ l2) = noCredential (u :: urls)
              end) as Hrest.
    { intros w1 r w2 l2 pre Hr%IH Hpre. rewrite to2Attempts_app, Hpre.
      destruct r as [dc|].
      - destruct Hr as (tried & url & rest & -> & ->).
        by exists (u :: tried), url, rest.
      - by rewrite Hr. }
    cbn [to2Walk]. unfold bind, transferOwnership2, bind, callTO2, emit, ret.
    cbv zeta. call; cbn [fst snd].
    + sub. intros [= <- <- <-].
      by apply (Hrest _ _ _ _ [CallTO2 u o true; LogTO2Failed] E).
    + destruct o as [dc|].
      * intros [= <- <- <-]. by exists [], u, urls.
      * sub. intros [= <- <- <-].
        by apply (Hrest _ _ _ _ [CallTO2 u None false] E).
Qed.

Lemma derivedURLs_acc to1d acc w :
  derivedURLs to1d acc w
  = let '(derived, w', log) := derivedURLs to1d [] w in (acc ++ derived, w', log).
Proof.
  destruct to1d; [apply blobURLs_acc|]. cbn. by rewrite app_nil_r.
Qed.

(** The candidate list: the bypass URLs, then what the blob gives. *)
Lemma to2Candidates_eq ctx directives conf w :
  to2Candidates ctx directives conf w
  = let '(out, w1, log1) := to1Walk ctx conf directives None w in
    match out with
    | Cancelled => (None, w1, log1)
    | Broke to1d | Exhausted to1d =>
        let '(derived, w2, log2) := derivedURLs to1d [] w1 in
        (Some (bypassURLs directives ++ derived, to1d), w2, log1 ++ log2)
    end.
Proof.
  unfold to2Candidates, bind, ret. rewrite collectBypass_app. cbn [app].
  destruct (to1Walk ctx conf directives None w) as [[[| to1d | to1d] w1] log1].
  - by rewrite app_nil_r.
  - rewrite derivedURLs_acc.
    destruct (derivedURLs to1d [] w1) as [[? ?] ?]. by rewrite app_nil_r.
  - rewrite derivedURLs_acc.
    destruct (derivedURLs to1d [] w1) as [[? ?] ?]. by rewrite app_nil_r.
Qed.

Lemma transferOwnership_eq ctx directives conf w :
  transferOwnership ctx directives conf w
  = let '(found, w1, log1) := to2Candidates ctx directives conf w in
    match found with
    | None => (None, w1, log1)
    | Some (urls, to1d) =>
        if rvOnly then
          (None, w1, log1 ++ match to1d with Some blob => [PrintBlob blob] | None => [] end)
        else
          let '(newDC, w2, log2) := to2Walk urls to1d conf w1 in
          (newDC, w2, log1 ++ log2)
    end.
Proof.
  unfold transferOwnership, bind, emit, ret.
  destruct (to2Candidates ctx directives conf w) as [[[[urls to1d]|] w1] log1].
  - destruct rvOnly; [by destruct to1d|done].
  - by rewrite app_nil_r.
Qed.

Lemma to2Candidates_phase ctx directives conf w found w' log :
  to2Candidates ctx directives conf w = (found, w', log) →
  Forall (λ e, phaseOf e = Rendezvous ∨ phaseOf e = Resolution) log.
Proof.
  rewrite to2Candidates_eq.
  destruct (to1Walk ctx conf directives None w) as [[out w1] log1] eqn:E1.
  apply to1Walk_phase in E1.
  assert (Forall (λ e, phaseOf e = Rendezvous ∨ phaseOf e = Resolution) log1) as H1.
  { eapply Forall_impl; [exact E1|]. by left. }
  destruct out as [| to1d | to1d]; [by intros [= <- <- <-]| |];
    destruct (derivedURLs to1d [] w1) as [[? ?] log2] eqn:E2;
    apply derivedURLs_phase in E2; intros [= <- <- <-];
    (apply Forall_app; split; [done|]);
    (eapply Forall_impl; [exact E2|]); by right.
Qed.

(** *** The claims about the walkers *)


(** C4.  The candidate list starts with the URLs of the bypass
    directives, in directive order, whatever the rendezvous phase does:
    the first loop computes them from the directive list alone, before
    the rendezvous loop runs, and the URLs derived from the blob are
    appended behind them. *)
Theorem bypass_candidates_first ctx directives conf w :
  collectBypass directives [] = bypassURLs directives
  ∧ let '(out, w1, log1) := to1Walk ctx conf directives None w in
    match out with
    | Cancelled => to2Candidates ctx directives conf w = (None, w1, log1)
    | Broke to1d | Exhausted to1d =>
        let '(derived, w2, log2) := derivedURLs to1d [] w1 in
        to2Candidates ctx directives conf w
        = (Some (bypassURLs directives ++ derived, to1d), w2, log1 ++ log2)
    end.
Proof.
  split; [by rewrite collectBypass_app|].
  rewrite to2Candidates_eq.
  destruct (to1Walk ctx conf directives None w) as [[[| to1d | to1d] w1] log1];
    [done|by destruct (derivedURLs to1d [] w1) as [[? ?] ?]..].
Qed.


(** C6.  An HTTP or HTTPS owner address with a resolvable DNS name and
    a valid IP literal adds exactly two candidates, the DNS one first,
    both with the scheme of the protocol and the same port: the
    address's port when it is not zero, else 80 for HTTP and 443 for
    HTTPS. *)
Theorem both_hosts_two_urls (to2Addr : RvTO2Addr IP) acc w dns ip w' :
  TransportProtocol to2Addr = protocol.HTTPTransport ∨ TransportProtocol to2Addr = protocol.HTTPSTransport →
  DNSAddress to2Addr = Some dns →
  net_LookupHost dns w = (true, w') →
  IPAddress to2Addr = Some ip →
  isValidIP (IP_String ip) = true →
  let scheme :=
    match TransportProtocol to2Addr with protocol.HTTPSTransport => "https://" | _ => "http://" end in
  let port :=
    if (Port to2Addr =? 0)%Z
    then match TransportProtocol to2Addr with protocol.HTTPSTransport => "443" | _ => "80" end
    else strconv.Itoa (Port to2Addr) in
  addrURLs to2Addr acc w
  = (acc ++ [scheme +:+ net.JoinHostPort dns port;
             scheme +:+ net.JoinHostPort (IP_String ip) port],
     w', [CallLookupHost dns true]).
Proof.
  intros Ht Hdns Hlook Hip Hvalid. unfold addrURLs. rewrite Hdns, ?Hip.
  destruct Ht as [-> | ->]; unfold schemeURLs, bind, ret, isResolvableDNS;
    rewrite Hdns, Hip, Hlook, Hvalid; cbv zeta;
    destruct (Port to2Addr =? 0)%Z; cbn [negb app];
    by rewrite <- app_assoc.
Qed.

(** C7.  The transfer loop tries the candidates in list order, one
    attempt per entry, and stops at the first attempt that returns a
    credential, which is its result; without any credential it tries
    them all and returns none. *)
Theorem transfer_first_credential_wins urls to1d conf w :
  let '(newDC, _, log) := to2Walk urls to1d conf w in
  match newDC with
  | Some dc =>
      ∃ tried url rest,
        urls = tried ++ url :: rest
        ∧ to2Attempts log = noCredential tried ++ [(url, Some dc)]
  | None => to2Attempts log = noCredential urls
  end.
Proof.
  destruct (to2Walk urls to1d conf w) as [[newDC w'] log] eqn:E.
  by apply to2Walk_attempts in E.
Qed.

(** C8.  When the transfer loop went through every candidate and none
    gave a credential, [doOnboard] reports it on standard output and
    returns no error, and [updateCred] is never called: the stored
    credential is left as it was. *)
Theorem exhausted_transfer_keeps_credential
    ctx w dc hasCleanup w1 suite urls to1d w2 log2 newDC w3 log3 :
  let conf := {| Cred := dc; DeviceModules := ∅ |} in
  readCred w = (inl (dc, hasCleanup), w1) →
  CipherSuiteByName cipherSuite = Some suite →
  rvOnly = false →
  to2Candidates ctx (ParseDeviceRvInfo dc) conf w1 = (Some (urls, to1d), w2, log2) →
  to2Walk urls to1d conf w2 = (newDC, w3, log3) →
  to2Attempts log3 = noCredential urls →
  let log :=
    CallReadCred :: log2 ++ log3
      ++ Println msgNotUpdated :: (if hasCleanup then [CallCleanup] else []) in
  doOnboard ctx w = (None, if hasCleanup then cleanup w3 else w3, log)
  ∧ Forall (λ e, isUpdateCred e = false) log.
Proof.
  intros conf Hread Hsuite Hrv Hcand Hwalk Hnone log.
  assert (newDC = None) as ->.
  { pose proof (to2Walk_attempts _ _ _ _ _ _ _ Hwalk) as Hatt.
    destruct newDC as [dc'|]; [|done].
    destruct Hatt as (tried & url & rest & -> & Hatt).
    rewrite Hatt, noCredential_app in Hnone.
    by apply app_inv_head in Hnone. }
  split.
  - unfold doOnboard, bind, callReadCred, ret. rewrite Hread.
    unfold doOnboardWith. rewrite Hsuite. unfold bind.
    rewrite transferOwnership_eq. fold conf. rewrite Hcand, Hrv, Hwalk.
    unfold emit, ret, callCleanup, log.
    destruct hasCleanup; cbn [app]; by rewrite <- ?app_assoc, ?app_nil_r.
  - unfold log. constructor; [done|].
    apply Forall_app. split.
    + eapply Forall_impl; [exact (to2Candidates_phase _ _ _ _ _ _ _ Hcand)|].
      intros e He. destruct e; cbn in He |- *; first [done | by destruct He].
    + apply Forall_app. split.
      * eapply phase_no_update; [|exact (to2Walk_phase _ _ _ _ _ _ _ Hwalk)]. done.
      * destruct hasCleanup; by repeat constructor.
Qed.

(** C10.  An owner address without DNS name and without IP address is
    logged and adds nothing: the blob loop gives the candidates of the
    other addresses, as if the address were not there, with one log
    entry more. *)
Theorem nameless_address_skipped (pre post : list (RvTO2Addr IP)) to2Addr acc w :
  DNSAddress to2Addr = None →
  IPAddress to2Addr = None →
  addrURLs to2Addr acc w = (acc, w, [LogBothNull])
  ∧ let '(urls1, w1, log1) := blobURLs pre acc w in
    let '(urls2, w2, log2) := blobURLs post urls1 w1 in
    blobURLs (pre ++ to2Addr :: post) acc w = (urls2, w2, log1 ++ LogBothNull :: log2)
    ∧ blobURLs (pre ++ post) acc w = (urls2, w2, log1 ++ log2).
Proof.
  intros Hdns Hip.
  assert (∀ acc w, addrURLs to2Addr acc w = (acc, w, [LogBothNull])) as Haddr.
  { intros acc' w'. unfold addrURLs. by rewrite Hdns, Hip. }
  split; [apply Haddr|].
  rewrite !blobURLs_app. cbn [blobURLs]. unfold bind.
  destruct (blobURLs pre acc w) as [[urls1 w1] log1].
  rewrite Haddr.
  by destruct (blobURLs post urls1 w1) as [[urls2 w2] log2].
Qed.

End OnboardFacts.

(** * The claims on concrete runs *)



(** C6 on the owner address of the laboratory's blob. *)
Lemma both_hosts_two_urls_witness :
  @addrURLs (Lab.collaborators true)
    {| IPAddress := Some "192.0.2.7"; DNSAddress := Some "owner.example";
       Port := 8443; TransportProtocol := protocol.HTTPSTransport |}
    ["http://bypass.example"] 0%nat
  = (["http://bypass.example"; "https://owner.example:8443"; "https://192.0.2.7:8443"],
     1%nat, [CallLookupHost "owner.example" true]).
Proof.
  apply (@both_hosts_two_urls (Lab.collaborators true)
           {| IPAddress := Some "192.0.2.7"; DNSAddress := Some "owner.example";
              Port := 8443; TransportProtocol := protocol.HTTPSTransport |}
           ["http://bypass.example"] 0%nat "owner.example" "192.0.2.7" 1%nat);
    first [reflexivity | by right].
Defined.

(** C8 in the laboratory with the owner down: both candidates are tried,
    the message is printed, the credential store is not written. *)
Lemma exhausted_transfer_keeps_credential_witness :
  @doOnboard (Lab.collaborators false) Lab.flags Lab.live 0%nat
  = (None, 8%nat,
     [CallReadCred;
      CallTO1 "http://down.example" true; LogTO1Failed "http://down.example";
      Suspend 5000000000 false;
      CallTO1 "http://rv.example:8080" false;
      CallLookupHost "owner.example" true;
      CallTO2 "https://owner.example:8443" None true; LogTO2Failed;
      CallTO2 "https://192.0.2.7:8443" None true; LogTO2Failed;
      Println msgNotUpdated; CallCleanup]).
Proof.
  apply (proj1 (@exhausted_transfer_keeps_credential (Lab.collaborators false) Lab.flags
           Lab.live 0%nat "old-credential" true 1%nat 1%N
           ["https://owner.example:8443"; "https://192.0.2.7:8443"] (Some Lab.blob)
           5%nat
           [CallTO1 "http://down.example" true; LogTO1Failed "http://down.example";
            Suspend 5000000000 false;
            CallTO1 "http://rv.example:8080" false;
            CallLookupHost "owner.example" true]
           None 7%nat
           [CallTO2 "https://owner.example:8443" None true; LogTO2Failed;
            CallTO2 "https://192.0.2.7:8443" None true; LogTO2Failed]
           eq_refl eq_refl eq_refl eq_refl eq_refl eq_refl)).
Defined.

(** C10 on a blob whose first address has neither name nor IP. *)
Lemma nameless_address_skipped_witness :
  @blobURLs (Lab.collaborators true)
    [ {| IPAddress := None; DNSAddress := None; Port := 8443; TransportProtocol := protocol.HTTPSTransport |};
      {| IPAddress := Some "192.0.2.7"; DNSAddress := None;
         Port := 0; TransportProtocol := protocol.HTTPTransport |} ]
    [] 0%nat
  = (["http://192.0.2.7:80"], 0%nat, [LogBothNull]).
Proof.
  apply (proj1 (proj2 (@nameless_address_skipped (Lab.collaborators true) []
           [ {| IPAddress := Some "192.0.2.7"; DNSAddress := None;
                Port := 0; TransportProtocol := protocol.HTTPTransport |} ]
           {| IPAddress := None; DNSAddress := None; Port := 8443;
              TransportProtocol := protocol.HTTPSTransport |}
           [] 0%nat eq_refl eq_refl))).
Defined.



(** * More about paths: what [Clean] returns *)

Section PathShape.

Implicit Types (s t e path dir name : string) (cs g : list string) (n : nat).

Lemma nosep_elem_cases e :
  hasSep e = false → e = "" ∨ e = "." ∨ e = ".." ∨ goodElem e.
Proof.
  intros He.
  destruct (String.eqb_spec e "") as [->|H1]; [by left|].
  destruct (String.eqb_spec e ".") as [->|H2]; [by right; left|].
  destruct (String.eqb_spec e "..") as [->|H3]; [by right; right; left|].
  right; right; right. split; [|done]. unfold iofs.validElem.
  apply String.eqb_neq in H1, H2, H3. by rewrite H1, H2, H3.
Qed.

Lemma rev_replicate {A} n (x : A) : rev (replicate n x) = replicate n x.
Proof.
  induction n as [|n IH]; [done|]. cbn [replicate rev]. rewrite IH.
  by rewrite <- replicate_cons_app.
Qed.

Lemma goodElem_not_dotdot e : goodElem e → String.eqb e ".." = false.
Proof. intros [(_ & _ & H)%validElem_inv _]. by apply String.eqb_neq. Qed.

(** One step of [Clean] keeps the output in shape: [..] elements (only
    in a relative path), then real elements. *)
Lemma cleanElem_shape rooted n g e :
  hasSep e = false → Forall goodElem g → (rooted = true → n = 0) →
  ∃ n' g',
    filepath.cleanElem rooted (rev (replicate n ".." ++ g)) e
    = rev (replicate n' ".." ++ g')
    ∧ Forall goodElem g' ∧ (rooted = true → n' = 0).
Proof.
  intros He Hg Hn.
  destruct (nosep_elem_cases e He) as [->|[->|[->|Hgood]]].
  - by exists n, g.
  - by exists n, g.
  - unfold filepath.cleanElem. cbn [String.eqb Ascii.eqb Bool.eqb orb andb].
    destruct g as [|x g0 _] using rev_ind.
    + rewrite app_nil_r, rev_replicate. destruct n as [|m].
      * cbn [replicate]. destruct rooted.
        -- by exists 0, [].
        -- by exists 1, [].
      * cbn [replicate String.eqb Ascii.eqb Bool.eqb andb].
        exists (S (S m)), []. rewrite app_nil_r, rev_replicate.
        split; [done|]. split; [done|]. intros Hr. by specialize (Hn Hr).
    + apply Forall_app in Hg as [Hg0 [Hx _]%Forall_cons].
      rewrite app_assoc, rev_unit. rewrite (goodElem_not_dotdot x Hx).
      by exists n, g0.
  - destruct Hgood as [Hv Hs]. rewrite cleanElem_good by done.
    exists n, (g ++ [e]). rewrite app_assoc, rev_unit.
    split; [done|]. split; [|done].
    apply Forall_app. split; [done|]. by apply Forall_singleton.
Qed.

Lemma fold_cleanElem_shape rooted cs :
  Forall (λ e, hasSep e = false) cs →
  ∀ n g, Forall goodElem g → (rooted = true → n = 0) →
  ∃ n' g',
    fold_left (filepath.cleanElem rooted) cs (rev (replicate n ".." ++ g))
    = rev (replicate n' ".." ++ g')
    ∧ Forall goodElem g' ∧ (rooted = true → n' = 0).
Proof.
  induction 1 as [|e cs He _ IH]; intros n g Hg Hn.
  - by exists n, g.
  - cbn [fold_left].
    destruct (cleanElem_shape rooted n g e He Hg Hn) as (n1 & g1 & -> & Hg1 & Hn1).
    by apply IH.
Qed.

Lemma Join_dots_good_nonempty n g :
  Forall goodElem g → replicate n ".." ++ g ≠ [] →
  ∃ c s, gostrings.Join (replicate n ".." ++ g) "/" = String c s ∧ isSep c = false.
Proof.
  intros Hg Hne. destruct n as [|n].
  - cbn [replicate app] in *. by apply Join_good_head.
  - cbn [replicate app]. rewrite Join_cons.
    destruct (replicate n ".." ++ g); by eexists _, _.
Qed.

(** The shape of what [Clean] returns. *)
Lemma Clean_shape path :
  path ≠ "" →
  ∃ n g,
    Forall goodElem g
    ∧ filepath.Clean path
      = if gostrings.HasPrefixSep path then cleanedAbs g else cleanedRel n g.
Proof.
  intros Hne. unfold filepath.Clean.
  apply String.eqb_neq in Hne. rewrite Hne.
  destruct (fold_cleanElem_shape (gostrings.HasPrefixSep path) (gostrings.Split path)
              (Split_elems_nosep path) 0 [] (Forall_nil_2 _) (λ _, eq_refl))
    as (n & g & E & Hg & Hn).
  cbn [replicate app rev] in E. rewrite E, rev_involutive.
  exists n, g. split; [done|].
  destruct (gostrings.HasPrefixSep path).
  - rewrite (Hn eq_refl). done.
  - unfold cleanedRel. destruct (replicate n ".." ++ g) as [|x l] eqn:El; [done|].
    destruct (Join_dots_good_nonempty n g Hg) as (c & s & Es & _);
      [by rewrite El|].
    rewrite El in Es. by rewrite Es.
Qed.

(** The same with the output of the element loop in view. *)
Lemma Clean_stack path :
  path ≠ "" →
  ∃ n g,
    Forall goodElem g
    ∧ (gostrings.HasPrefixSep path = true → n = 0)
    ∧ fold_left (filepath.cleanElem (gostrings.HasPrefixSep path)) (gostrings.Split path) []
      = rev (replicate n ".." ++ g)
    ∧ filepath.Clean path
      = if gostrings.HasPrefixSep path then cleanedAbs g else cleanedRel n g.
Proof.
  intros Hne. unfold filepath.Clean.
  apply String.eqb_neq in Hne. rewrite Hne.
  destruct (fold_cleanElem_shape (gostrings.HasPrefixSep path) (gostrings.Split path)
              (Split_elems_nosep path) 0 [] (Forall_nil_2 _) (λ _, eq_refl))
    as (n & g & E & Hg & Hn).
  cbn [replicate app rev] in E. rewrite E, rev_involutive.
  exists n, g. split; [done|]. split; [done|]. split; [done|].
  destruct (gostrings.HasPrefixSep path).
  - rewrite (Hn eq_refl). done.
  - unfold cleanedRel. destruct (replicate n ".." ++ g) as [|x l] eqn:El; [done|].
    destruct (Join_dots_good_nonempty n g Hg) as (c & s & Es & _);
      [by rewrite El|].
    rewrite El in Es. by rewrite Es.
Qed.

Lemma Split_app s t :
  gostrings.Split (s +:+ "/" +:+ t) = gostrings.Split s ++ gostrings.Split t.
Proof.
  induction s as [|c s IH]; [done|].
  rewrite (sapp_cons c s). cbn [gostrings.Split]. rewrite IH.
  destruct (isSep c); [done|].
  pose proof (Split_nonempty s). by destruct (gostrings.Split s).
Qed.

Lemma HasPrefixSep_app s t :
  s ≠ "" → gostrings.HasPrefixSep (s +:+ t) = gostrings.HasPrefixSep s.
Proof. by destruct s. Qed.

Lemma cleanedRel_head n g :
  Forall goodElem g → ∃ c s, cleanedRel n g = String c s ∧ isSep c = false.
Proof.
  intros Hg. unfold cleanedRel.
  destruct (replicate n ".." ++ g) as [|x l] eqn:E; [by eexists _, _|].
  rewrite <- E. apply Join_dots_good_nonempty; [done|by rewrite E].
Qed.

Lemma cleanedAbs_Join g : g ≠ [] → cleanedAbs g = gostrings.Join ("" :: g) "/".
Proof. by destruct g. Qed.

(** A path is absolute after [Clean] exactly when it was rooted. *)
Lemma Clean_IsAbs path :
  filepath.IsAbs (filepath.Clean path) = gostrings.HasPrefixSep path.
Proof.
  destruct (decide (path = "")) as [->|Hne]; [done|].
  destruct (Clean_shape path Hne) as (n & g & Hg & ->).
  destruct (gostrings.HasPrefixSep path); [done|].
  destruct (cleanedRel_head n g Hg) as (c & s & -> & Hc). done.
Qed.

Lemma Join_two dir x :
  dir ≠ "" → filepath.Join [dir; x] = filepath.Clean (dir +:+ "/" +:+ x).
Proof.
  intros Hne. cbn [filepath.Join]. apply String.eqb_neq in Hne. by rewrite Hne.
Qed.

(** Cleaning [dir/tail]: the elements of [tail] go through the element
    loop after those of [dir]. *)
Lemma Clean_under dir tail :
  dir ≠ "" → tail ≠ [] → Forall (λ e, hasSep e = false) tail →
  filepath.Clean (dir +:+ "/" +:+ gostrings.Join tail "/")
  = let rooted := gostrings.HasPrefixSep dir in
    let out :=
      rev (fold_left (filepath.cleanElem rooted) tail
             (fold_left (filepath.cleanElem rooted) (gostrings.Split dir) [])) in
    let body := gostrings.Join out "/" in
    if rooted then "/" +:+ body else if String.eqb body "" then "." else body.
Proof.
  intros Hdir Htail Hsep. unfold filepath.Clean.
  rewrite HasPrefixSep_app by done.
  rewrite Split_app, Split_Join, fold_left_app by done.
  destruct dir as [|c d]; [done|]. by rewrite sapp_cons.
Qed.

(** Real elements appended to a directory stay below it. *)
Lemma Clean_under_good dir g :
  dir ≠ "" → filepath.Clean dir ≠ "/" → filepath.Clean dir ≠ "." →
  g ≠ [] → Forall goodElem g →
  filepath.Clean (dir +:+ "/" +:+ gostrings.Join g "/")
  = filepath.Clean dir +:+ "/" +:+ gostrings.Join g "/".
Proof.
  intros Hdir Hroot Hdot Hg Hgood.
  rewrite Clean_under by auto using goodElems_nosep. cbv zeta.
  destruct (Clean_stack dir Hdir) as (n & gd & Hgd & Hn & -> & E).
  rewrite E in *. rewrite fold_cleanElem_good by done.
  rewrite <- rev_app_distr, rev_involutive, <- app_assoc.
  destruct (gostrings.HasPrefixSep dir).
  - rewrite (Hn eq_refl) in *. cbn [replicate app] in *.
    unfold cleanedAbs in *. destruct gd as [|x gd]; [done|].
    rewrite Join_app by done. by rewrite sapp_assoc.
  - unfold cleanedRel in *.
    destruct (replicate n ".." ++ gd) as [|x l] eqn:El; [done|].
    rewrite <- El in *.
    assert (replicate n ".." ++ gd ≠ []) as Hne by (by rewrite El).
    rewrite app_assoc, Join_app by done.
    destruct (Join_dots_good_nonempty n gd Hgd Hne) as (c & s & -> & _).
    by rewrite sapp_cons.
Qed.

(** A dot or an empty element appended to a directory gives the
    directory. *)
Lemma Clean_under_nothing dir tail :
  dir ≠ "" → tail ≠ [] → Forall (λ e, e = "" ∨ e = ".") tail →
  filepath.Clean (dir +:+ "/" +:+ gostrings.Join tail "/") = filepath.Clean dir.
Proof.
  intros Hdir Htail Hnothing.
  rewrite Clean_under; [|done|done|].
  2: { eapply Forall_impl; [exact Hnothing|]. by intros e [->| ->]. }
  cbv zeta.
  assert (∀ rooted out, fold_left (filepath.cleanElem rooted) tail out = out) as ->.
  { intros rooted. clear Htail. induction Hnothing as [|e tail He _ IH]; [done|].
    intros out. cbn [fold_left]. by destruct He as [-> | ->]; rewrite IH. }
  unfold filepath.Clean. apply String.eqb_neq in Hdir. by rewrite Hdir.
Qed.

Lemma prefix_app s t : String.prefix s (s +:+ t) = true.
Proof.
  induction s as [|c s IH]; [by destruct t|].
  rewrite sapp_cons. cbn [String.prefix]. by destruct (ascii_dec c c).
Qed.

Lemma insideDir_below dir x : insideDir dir (dir +:+ "/" +:+ x) = true.
Proof.
  unfold insideDir. rewrite <- sapp_assoc, prefix_app. apply orb_true_r.
Qed.

Lemma insideDir_self dir : insideDir dir dir = true.
Proof. unfold insideDir. by rewrite String.eqb_refl. Qed.

Lemma stripTrailingSeps_app s x :
  x ≠ "" → hasSep x = false → filepath.stripTrailingSeps (s +:+ x) = s +:+ x.
Proof.
  intros Hx Hs. induction s as [|c s IH].
  - rewrite sapp_nil_l. clear Hx. induction x as [|c x IH]; [done|].
    cbn [hasSep] in Hs. apply orb_false_elim in Hs as [Hc Hs].
    cbn [filepath.stripTrailingSeps]. rewrite (IH Hs), Hc. by destruct x.
  - rewrite sapp_cons. cbn [filepath.stripTrailingSeps]. rewrite IH.
    destruct (s +:+ x) eqn:E; [|done]. by destruct s, x.
Qed.

Lemma afterLastSep_nosep x : hasSep x = false → filepath.afterLastSep x = x.
Proof.
  destruct x as [|c x]; [done|]. cbn [hasSep filepath.afterLastSep].
  intros [Hc Hx]%orb_false_elim. by rewrite Hx, Hc.
Qed.

Lemma afterLastSep_app s x :
  hasSep x = false → filepath.afterLastSep (s +:+ "/" +:+ x) = x.
Proof.
  intros Hx. induction s as [|c s IH].
  - rewrite sapp_nil_l. change ("/" +:+ x) with (String "/" x).
    cbn [filepath.afterLastSep]. by rewrite Hx.
  - rewrite (sapp_cons c s). cbn [filepath.afterLastSep]. rewrite IH.
    rewrite hasSep_app. change ("/" +:+ x) with (String "/" x).
    cbn [hasSep]. change (isSep "/") with true. by rewrite orb_true_r.
Qed.

(** The base name of a cleaned absolute path is its last element. *)
Lemma Base_cleanedAbs g x :
  Forall goodElem (g ++ [x]) → filepath.Base (cleanedAbs (g ++ [x])) = x.
Proof.
  intros [Hg [[Hv Hs] _]%Forall_cons]%Forall_app.
  apply validElem_inv in Hv as (Hx & _ & _).
  assert (cleanedAbs (g ++ [x]) = gostrings.Join ("" :: g) "/" +:+ "/" +:+ x) as ->.
  { rewrite cleanedAbs_Join by (by destruct g).
    change ("" :: g ++ [x]) with (("" :: g) ++ [x]).
    by rewrite (Join_snoc ("" :: g)). }
  unfold filepath.Base.
  rewrite <- sapp_assoc, stripTrailingSeps_app, sapp_assoc, afterLastSep_app by done.
  destruct (gostrings.Join ("" :: g) "/" +:+ "/" +:+ x) eqn:E.
  { by destruct (gostrings.Join ("" :: g) "/"). }
  cbn [String.eqb]. apply String.eqb_neq in Hx. by rewrite Hx.
Qed.

Lemma cleanedAbs_not_root g :
  g ≠ [] → Forall goodElem g → String.eqb (cleanedAbs g) "/" = false.
Proof.
  intros Hne Hg. destruct (Join_good_head g Hne Hg) as (c & s & E & _).
  unfold cleanedAbs. by rewrite E.
Qed.

Lemma dropDots_dots n g :
  Forall goodElem g → dropDots (replicate n ".." ++ g) = g.
Proof.
  intros Hg. induction n as [|n IH]; [|done].
  cbn [replicate app]. destruct Hg as [|x g [Hx _] _]; [done|].
  apply validElem_inv in Hx as (_ & H1 & H2).
  apply String.eqb_neq in H1, H2. cbn [dropDots]. by rewrite H1, H2.
Qed.

Lemma Split_cleanedRel n g :
  Forall goodElem g →
  gostrings.Split (cleanedRel n g)
  = match replicate n ".." ++ g with [] => ["."] | l => l end.
Proof.
  intros Hg. unfold cleanedRel.
  destruct (replicate n ".." ++ g) as [|x l] eqn:E; [done|].
  rewrite <- E. apply Split_Join; [by rewrite E|].
  apply Forall_app. split; [|by apply goodElems_nosep].
  clear. induction n; by constructor.
Qed.

End PathShape.

(** X1.  A received name that is absolute once cleaned is reduced to its
    last element and placed directly in the cleaned directory (the root
    name gives the directory itself): the result is inside the directory,
    whatever the name.  The directory is any non-empty path that does not
    clean to the root or to the dot. *)
Theorem NameToPath_absolute_name (dir name : string) :
  dir ≠ "" → filepath.Clean dir ≠ "/" → filepath.Clean dir ≠ "." →
  filepath.IsAbs (filepath.Clean name) = true →
  NameToPath dir name
  = (if String.eqb (filepath.Clean name) "/" then filepath.Clean dir
     else filepath.Clean dir +:+ "/" +:+ filepath.Base (filepath.Clean name))
  ∧ insideDir (filepath.Clean dir) (NameToPath dir name) = true.
Proof.
  intros Hdir Hroot Hdot Habs.
  assert (NameToPath dir name
          = if String.eqb (filepath.Clean name) "/" then filepath.Clean dir
            else filepath.Clean dir +:+ "/" +:+ filepath.Base (filepath.Clean name)) as E.
  { unfold NameToPath. rewrite Habs. cbn [negb]. rewrite Join_two by done.
    rewrite Clean_IsAbs in Habs.
    assert (name ≠ "") as Hname by (by intros ->).
    destruct (Clean_shape name Hname) as (n & g & Hg & ->). rewrite Habs.
    destruct g as [|x g _] using rev_ind.
    - change (cleanedAbs []) with "/". change (filepath.Base "/") with "/".
      cbn [String.eqb Ascii.eqb Bool.eqb andb].
      apply (Clean_under_nothing dir [""; ""]); [done|done|].
      by repeat constructor; left.
    - rewrite cleanedAbs_not_root, Base_cleanedAbs by (by destruct g).
      apply Forall_app in Hg as [_ Hx].
      by apply (Clean_under_good dir [x]). }
  split; [done|]. rewrite E.
  destruct (String.eqb _ "/"); [apply insideDir_self|apply insideDir_below].
Qed.

(** X2.  A received name that is relative once cleaned and does not
    start with a [..] element lands in the cleaned directory under its
    cleaned form (the dot gives the directory itself): the result is
    inside the directory.  With C1 this leaves the names whose cleaned
    form starts with [..] as the only ones that can leave it. *)
Theorem NameToPath_plain_name (dir name : string) :
  dir ≠ "" → filepath.Clean dir ≠ "/" → filepath.Clean dir ≠ "." →
  filepath.IsAbs (filepath.Clean name) = false →
  filepath.Clean name ≠ ".." →
  String.prefix "../" (filepath.Clean name) = false →
  NameToPath dir name
  = (if String.eqb (filepath.Clean name) "." then filepath.Clean dir
     else filepath.Clean dir +:+ "/" +:+ filepath.Clean name)
  ∧ insideDir (filepath.Clean dir) (NameToPath dir name) = true.
Proof.
  intros Hdir Hroot Hdot Habs Hup1 Hup2.
  assert (NameToPath dir name
          = if String.eqb (filepath.Clean name) "." then filepath.Clean dir
            else filepath.Clean dir +:+ "/" +:+ filepath.Clean name) as E.
  { unfold NameToPath. rewrite Habs. cbn [negb]. rewrite Join_two by done.
    destruct (decide (name = "")) as [->|Hname].
    { change (filepath.Clean "") with ".". cbn [String.eqb Ascii.eqb Bool.eqb andb].
      apply (Clean_under_nothing dir ["."]); [done|done|].
      by repeat constructor; right. }
    rewrite Clean_IsAbs in Habs.
    destruct (Clean_shape name Hname) as (n & g & Hg & E). rewrite Habs in E.
    rewrite E in *. clear E. unfold cleanedRel in *.
    destruct n as [|n].
    - cbn [replicate app] in *. destruct g as [|x g]; [|set (l := x :: g) in *].
      + cbn [String.eqb Ascii.eqb Bool.eqb andb].
        apply (Clean_under_nothing dir ["."]); [done|done|].
        by repeat constructor; right.
      + destruct (Join_good_neq l) as [_ Hl]; [done|done|].
        apply String.eqb_neq in Hl. rewrite Hl.
        by apply Clean_under_good.
    - exfalso. cbn [replicate app] in *.
      destruct (replicate n ".." ++ g) as [|y l]; [done|].
      rewrite Join_cons in Hup2.
      change (String.prefix "../" ("../" +:+ gostrings.Join (y :: l) "/") = false) in Hup2.
      by rewrite prefix_app in Hup2. }
  split; [done|]. rewrite E.
  destruct (String.eqb _ "."); [apply insideDir_self|apply insideDir_below].
Qed.

(** X3.  The logical name of a relative path is its cleaned form without
    the leading [..] elements; when nothing is left it is the base name
    of the absolute path, or the empty name if none is given. *)
Theorem pathToName_relative (c : ascii) (s abs : string) :
  isSep c = false →
  ∃ n g,
    Forall goodElem g
    ∧ filepath.Clean (String c s) = cleanedRel n g
    ∧ pathToName (String c s) abs
      = Some (match g with
              | [] => if String.eqb abs "" then "" else filepath.Join [filepath.Base abs]
              | _ :: _ => gostrings.Join g "/"
              end).
Proof.
  intros Hc.
  destruct (Clean_shape (String c s)) as (n & g & Hg & E); [done|].
  cbn [gostrings.HasPrefixSep] in E. rewrite Hc in E.
  exists n, g. split; [done|]. split; [done|].
  unfold pathToName. rewrite Hc, E, Split_cleanedRel by done.
  assert (dropDots (match replicate n ".." ++ g with [] => ["."] | l => l end) = g) as ->.
  { destruct (replicate n ".." ++ g) as [|x l] eqn:El.
    - by apply app_eq_nil in El as [_ ->].
    - rewrite <- El. by apply dropDots_dots. }
  destruct g as [|x g]; [by destruct (String.eqb abs "")|].
  cbn [length Nat.eqb andb].
  destruct (Join_good_head (x :: g)) as (c' & s' & Ej & _); [done|done|].
  cbn [filepath.Join].
  apply Forall_cons in Hg as Hg'. destruct Hg' as [[(Hx & _)%validElem_inv _] _].
  apply String.eqb_neq in Hx. rewrite Hx. f_equal. by apply Clean_Join_good.
Qed.

(** * More about the upload file system *)

Section FsVarFacts.

Implicit Types (files : gmap string string) (path name dir rest abs : string).
Implicit Types (cs : list string).

Lemma Clean_cleanedAbs g :
  Forall goodElem g → filepath.Clean (cleanedAbs g) = cleanedAbs g.
Proof.
  intros Hg. destruct g as [|x g]; [done|].
  rewrite cleanedAbs_Join by done. unfold filepath.Clean.
  rewrite Split_Join; [|done|].
  2: { constructor; [done|]. by apply goodElems_nosep. }
  change ("" :: x :: g) with ([""] ++ (x :: g)). rewrite fold_left_app.
  change (fold_left _ [""] []) with (@nil string).
  by rewrite fold_cleanElem_good, app_nil_r, rev_involutive.
Qed.

Lemma fold_cleanElem_dots n m :
  fold_left (filepath.cleanElem false) (replicate n "..") (replicate m "..")
  = replicate (n + m) "..".
Proof.
  revert m. induction n as [|n IH]; intros m; [done|].
  cbn [replicate fold_left].
  replace (filepath.cleanElem false (replicate m "..") "..") with (replicate (S m) "..")
    by (by destruct m).
  rewrite IH. f_equal. lia.
Qed.

Lemma Clean_cleanedRel n g :
  Forall goodElem g → filepath.Clean (cleanedRel n g) = cleanedRel n g.
Proof.
  intros Hg. unfold cleanedRel.
  destruct (replicate n ".." ++ g) as [|x l] eqn:E; [done|]. rewrite <- E.
  assert (replicate n ".." ++ g ≠ []) as Hne by (by rewrite E).
  destruct (Join_dots_good_nonempty n g Hg Hne) as (c & s & Ej & Hc).
  assert (gostrings.HasPrefixSep (gostrings.Join (replicate n ".." ++ g) "/") = false)
    as Hr by (by rewrite Ej).
  assert (String.eqb (gostrings.Join (replicate n ".." ++ g) "/") "" = false)
    as Hnz by (by rewrite Ej).
  unfold filepath.Clean. rewrite Hr, Hnz, Split_Join; [|done|].
  2: { apply Forall_app. split; [|by apply goodElems_nosep].
       clear. induction n; by constructor. }
  rewrite fold_left_app.
  pose proof (fold_cleanElem_dots n 0) as Hd. rewrite Nat.add_0_r in Hd.
  cbn [replicate] in Hd. rewrite Hd, fold_cleanElem_good by done.
  by rewrite rev_app_distr, rev_involutive, rev_replicate, Hnz.
Qed.

(** [Clean] changes nothing in a path that is already clean. *)
Lemma Clean_idempotent path : filepath.Clean (filepath.Clean path) = filepath.Clean path.
Proof.
  destruct (decide (path = "")) as [->|Hne]; [done|].
  destruct (Clean_shape path Hne) as (n & g & Hg & ->).
  destruct (gostrings.HasPrefixSep path);
    [by apply Clean_cleanedAbs|by apply Clean_cleanedRel].
Qed.

Lemma Clean_Join_id (elem : list string) :
  filepath.Join elem ≠ "" → filepath.Clean (filepath.Join elem) = filepath.Join elem.
Proof.
  induction elem as [|e elem IH]; [done|]. cbn [filepath.Join].
  destruct (String.eqb e ""); [done|]. intros _. apply Clean_idempotent.
Qed.

(** The ancestor walk stops at the deepest registered ancestor. *)
Lemma walkUp_finds files cs1 cs2 fuel abs :
  cs1 ≠ [] → Forall goodElem (cs1 ++ cs2) → length (cs1 ++ cs2) < fuel →
  files !! gostrings.Join cs1 "/" = Some abs →
  (∀ j, 0 < j → j ≤ length cs2 →
        files !! gostrings.Join (cs1 ++ take j cs2) "/" = None) →
  walkUp fuel files (gostrings.Join (cs1 ++ cs2) "/") = Some (Some abs).
Proof.
  intros Hne. revert fuel.
  induction cs2 as [|e cs2 IH] using rev_ind; intros fuel Hall Hfuel Hreg Hbetween.
  - rewrite app_nil_r in *. destruct fuel; [cbn in Hfuel; lia|].
    destruct (Join_good_neq _ Hne Hall) as [N1 N2].
    cbn [walkUp]. apply String.eqb_neq in N1, N2. by rewrite N1, N2, Hreg.
  - rewrite app_assoc in *.
    apply Forall_app in Hall as Hall'. destruct Hall' as [Hcs [He _]%Forall_cons].
    rewrite length_app in Hfuel. cbn [length] in Hfuel.
    destruct fuel as [|fuel]; [lia|].
    assert ((cs1 ++ cs2) ++ [e] ≠ []) as Hne' by (by destruct (cs1 ++ cs2)).
    destruct (Join_good_neq _ Hne' Hall) as [N1 N2].
    cbn [walkUp]. apply String.eqb_neq in N1, N2. rewrite N1, N2. cbn [orb].
    specialize (Hbetween (length (cs2 ++ [e]))) as Hfull.
    rewrite firstn_all, app_assoc in Hfull.
    rewrite Hfull by (rewrite length_app; cbn; lia).
    rewrite Dir_Join by done.
    replace (match cs1 ++ cs2 with [] => "." | _ :: _ => gostrings.Join (cs1 ++ cs2) "/" end)
      with (gostrings.Join (cs1 ++ cs2) "/") by (by destruct cs1).
    apply IH; [done|lia|done|].
    intros j Hj1 Hj2. specialize (Hbetween j Hj1).
    rewrite take_app_le in Hbetween by done. apply Hbetween.
    rewrite length_app. lia.
Qed.

Lemma pathToName_valid_abs path abs :
  iofs.ValidPath path = true → path ≠ "." → pathToName path abs = Some path.
Proof.
  intros Hv Hdot.
  pose proof (ValidPath_elems _ Hv Hdot) as Hcs.
  pose proof (Split_nonempty path) as Hne.
  destruct (Join_good_head _ Hne Hcs) as (c & s & E & Hc).
  rewrite Join_Split in E. unfold pathToName.
  rewrite (Clean_valid _ Hv). rewrite E at 1. rewrite Hc.
  destruct (gostrings.Split path) as [|e es] eqn:Es; [done|].
  apply Forall_cons in Hcs as Hcs'. destruct Hcs' as [[He _] _].
  apply validElem_inv in He as (He1 & He2 & He3).
  apply String.eqb_neq in He1, He2, He3.
  cbn [dropDots]. rewrite He2, He3. cbn [orb length Nat.eqb andb filepath.Join].
  rewrite He1, <- Es, Join_Split. by rewrite (Clean_valid _ Hv).
Qed.

Lemma pathToName_None path abs : pathToName path abs = None ↔ path = "".
Proof.
  split; [|by intros ->]. unfold pathToName.
  destruct path as [|c s]; [done|]. by destruct (isSep c).
Qed.

Lemma fold_paths visit acc :
  visit ≠ [] →
  fold_left (λ paths path, paths +:+ path +:+ ",") visit acc
  = acc +:+ gostrings.Join visit "," +:+ ",".
Proof.
  revert acc. induction visit as [|k visit IH]; intros acc Hne; [done|].
  cbn [fold_left]. destruct visit as [|k' visit]; [done|].
  rewrite IH by done.
  change (gostrings.Join (k :: k' :: visit) ",")
    with (k +:+ "," +:+ gostrings.Join (k' :: visit) ",").
  by rewrite !sapp_assoc.
Qed.

Lemma dropLastByte_app s c : dropLastByte (s +:+ String c "") = s.
Proof.
  induction s as [|a s IH]; [done|].
  rewrite sapp_cons. cbn [dropLastByte]. rewrite IH.
  by destruct s.
Qed.

End FsVarFacts.

(** X4.  With the root passthrough registered, every well-formed request
    is handed to [os.Open] as it is, a relative path, whatever else is
    registered. *)
Theorem Open_passthrough (files : gmap string string) (path : string) :
  is_Some (files !! "/") → iofs.ValidPath path = true →
  Open files path = Some (OsOpen path).
Proof.
  intros [abs Hroot] Hv. unfold Open.
  by rewrite Hv, Hroot, (Clean_valid _ Hv).
Qed.

(** X5.  A request below a registered directory opens the registered path
    of the deepest registered ancestor, the directory itself and not the
    file asked for: with [dir] registered, the request [dir/rest] not
    registered and nothing registered in between, [Open] hands the cleaned
    path registered for [dir] to [os.Open]. *)
Theorem Open_deepest_ancestor (files : gmap string string) (path dir rest abs : string) :
  files !! "/" = None →
  iofs.ValidPath path = true →
  path = dir +:+ "/" +:+ rest →
  files !! dir = Some abs →
  files !! path = None →
  (∀ mid below, rest = mid +:+ "/" +:+ below → files !! (dir +:+ "/" +:+ mid) = None) →
  Open files path = Some (OsOpen (filepath.Clean abs)).
Proof.
  intros Hroot Hv Hpath Hdir Hreg Hbetween.
  assert (path ≠ ".") as Hdot.
  { rewrite Hpath. intros E. apply (f_equal hasSep) in E.
    rewrite hasSep_app in E. cbn in E. by rewrite orb_true_r in E. }
  unfold Open. rewrite Hv, Hroot, pathToName_valid by done.
  apply String.eqb_neq in Hdot as Hdot'. rewrite Hdot'.
  cbn [negb mbind option_bind]. rewrite Hreg.
  pose proof (ValidPath_elems _ Hv Hdot) as Hcs.
  pose proof (Split_length path) as Hlen.
  rewrite Hpath, Split_app in Hcs, Hlen.
  pose proof (Split_nonempty dir) as Hne1.
  pose proof (Split_nonempty rest) as Hne2.
  pose proof (Join_Split dir) as HJ1.
  pose proof (Join_Split rest) as HJ2.
  destruct (gostrings.Split rest) as [|e cs2 _] using rev_ind; [done|].
  assert (path = gostrings.Join ((gostrings.Split dir ++ cs2) ++ [e]) "/") as HJ.
  { rewrite <- app_assoc, Join_app, HJ1, HJ2 by (done || by destruct cs2). done. }
  rewrite app_assoc in Hcs, Hlen.
  apply Forall_app in Hcs as [Hcs [He _]%Forall_cons].
  rewrite length_app in Hlen. cbn [length] in Hlen.
  rewrite HJ at 2. rewrite Dir_Join by done.
  replace (match gostrings.Split dir ++ cs2 with
           | [] => "." | _ :: _ => gostrings.Join (gostrings.Split dir ++ cs2) "/" end)
    with (gostrings.Join (gostrings.Split dir ++ cs2) "/")
    by (by destruct (gostrings.Split dir)).
  rewrite (walkUp_finds files (gostrings.Split dir) cs2 _ abs); try done.
  - rewrite <- Hpath in Hlen. lia.
  - by rewrite HJ1.
  - intros j Hj1 Hj2.
    rewrite Join_app, HJ1; [|done|].
    2: { intros E. apply (f_equal length) in E. rewrite length_take in E. cbn in E. lia. }
    apply (Hbetween _ (gostrings.Join (drop j cs2 ++ [e]) "/")).
    rewrite <- HJ2, <- (take_drop j cs2) at 1. rewrite <- app_assoc.
    apply Join_app.
    + intros E. apply (f_equal length) in E. rewrite length_take in E. cbn in E. lia.
    + by destruct (drop j cs2).
Qed.

(** [Clean] never returns the empty string. *)
Lemma Clean_nonempty (path : string) : filepath.Clean path ≠ "".
Proof.
  destruct (decide (path = "")) as [->|Hne]; [done|].
  destruct (Clean_shape path Hne) as (n & g & Hg & ->).
  destruct (gostrings.HasPrefixSep path); [done|].
  by destruct (cleanedRel_head n g Hg) as (c & s & -> & _).
Qed.

(** X6.  With a working directory at hand, [Set] panics exactly when one
    of the comma-separated elements of its argument is empty (the empty
    argument, a doubled or a trailing comma), through the slice
    [path[:1]] of [pathToName]; otherwise it returns [nil]. *)
Theorem fsVar_Set_panics_on_empty_element
    (wd : string) (files : gmap string string) (paths : string) :
  (fsVar_Set (Some wd) files paths).2
  = if bool_decide ("" ∈ strings_Split "," paths) then SetPanicked else SetDone.
Proof.
  unfold fsVar_Set. generalize (strings_Split "," paths). intros elems.
  revert files. induction elems as [|path elems IH]; intros files; [done|].
  cbn [setPaths]. unfold filepath_Abs.
  assert (∀ abs, (match pathToName path abs with
                  | Some name => setPaths (Some wd) elems (<[name:=abs]> files)
                  | None => (files, SetPanicked)
                  end).2
                 = if bool_decide ("" ∈ path :: elems) then SetPanicked else SetDone)
    as Hstep.
  { intros abs. destruct (pathToName path abs) as [name|] eqn:E.
    - rewrite IH. assert (path ≠ "") as Hne by (intros ->; by cbn in E).
      rewrite (bool_decide_ext ("" ∈ path :: elems) ("" ∈ elems)); [done|].
      rewrite elem_of_cons. split; [by intros [<-|?]|by right].
    - apply pathToName_None in E as ->. rewrite bool_decide_eq_true_2; [done|].
      by left. }
  destruct (filepath.IsAbs path); apply Hstep.
Qed.

(** X7.  Registering a well-formed relative path and asking for it again:
    [Set] registers the path under its own name with the path joined to
    the working directory, and [Open] of that name hands exactly that
    joined path to [os.Open]. *)
Theorem Open_after_Set (wd : string) (files : gmap string string) (path : string) :
  iofs.ValidPath path = true → path ≠ "." →
  strings_Split "," path = [path] →
  files !! "/" = None →
  fsVar_Set (Some wd) files path
  = (<[path := filepath.Join [wd; path]]> files, SetDone)
  ∧ Open (fsVar_Set (Some wd) files path).1 path
    = Some (OsOpen (filepath.Join [wd; path])).
Proof.
  intros Hv Hdot Hcomma Hroot.
  assert (filepath.IsAbs path = false) as Hrel.
  { pose proof (ValidPath_rooted (match path with String _ s => s | _ => "" end)) as H.
    destruct path as [|c s]; [done|]. cbn. destruct (isSep c) eqn:Hc; [|done].
    apply Ascii.eqb_eq in Hc as ->. cbn in H. congruence. }
  assert (fsVar_Set (Some wd) files path
          = (<[path := filepath.Join [wd; path]]> files, SetDone)) as E.
  { unfold fsVar_Set. rewrite Hcomma. cbn [setPaths]. unfold filepath_Abs.
    by rewrite Hrel, pathToName_valid_abs. }
  split; [done|]. rewrite E. cbn [fst]. unfold Open.
  rewrite Hv, pathToName_valid by done.
  apply String.eqb_neq in Hdot as Hdot'. rewrite Hdot'.
  cbn [negb mbind option_bind].
  rewrite lookup_insert_ne by (intros ->; by vm_compute in Hv).
  rewrite Hroot, lookup_insert_eq. do 2 f_equal. apply Clean_Join_id.
  cbn [filepath.Join]. destruct (String.eqb wd "").
  - destruct (String.eqb_spec path "") as [->|_]; [done|].
    intros E'. pose proof (Clean_valid _ Hv) as Hc.
    cbn [gostrings.Join] in E'. rewrite Hc in E'. by subst.
  - apply Clean_nonempty.
Qed.

(** X8.  A configured path that is rooted and cleans to the root (the
    root itself, [//], [/..]) registers the sentinel key whatever the
    working directory, and from then on every well-formed request is
    handed to [os.Open] unchanged. *)
Theorem Set_root_is_passthrough
    (wd : option string) (files : gmap string string) (root path : string) :
  gostrings.HasPrefixSep root = true → filepath.Clean root = "/" →
  strings_Split "," root = [root] →
  iofs.ValidPath path = true →
  fsVar_Set wd files root = (<["/" := "/"]> files, SetDone)
  ∧ Open (fsVar_Set wd files root).1 path = Some (OsOpen path).
Proof.
  intros Hrooted Hclean Hcomma Hv.
  assert (fsVar_Set wd files root = (<["/" := "/"]> files, SetDone)) as E.
  { unfold fsVar_Set. rewrite Hcomma. cbn [setPaths]. unfold filepath_Abs, filepath.IsAbs.
    rewrite Hrooted, Hclean. unfold pathToName. rewrite Hclean.
    destruct root as [|c s]; [done|]. cbn in Hrooted. by rewrite Hrooted. }
  split; [done|]. rewrite E. cbn [fst].
  unfold Open. by rewrite Hv, lookup_insert_eq, (Clean_valid _ Hv).
Qed.

(** X9.  [String] lists the keys in the order of the iteration, separated
    by commas and between brackets, with no comma left at the end; the
    empty mapping gives [[]]. *)
Theorem fsVar_String_format (files : gmap string string) (visit : list string) :
  visit ≡ₚ (map_to_list files).*1 →
  fsVar_String files visit = "[" +:+ gostrings.Join visit "," +:+ "]".
Proof.
  intros Hperm. unfold fsVar_String.
  assert (size files = length visit) as Hsize.
  { rewrite Hperm, length_fmap. symmetry. apply length_map_to_list. }
  rewrite Hsize. destruct visit as [|k visit]; [done|].
  cbn [length Nat.eqb]. rewrite fold_paths by done.
  rewrite <- sapp_assoc, dropLastByte_app. by rewrite sapp_assoc.
Qed.

(** * More about the walkers *)

Section OnboardMore.

Context `{Collaborators, Flags}.

Implicit Types (w : World) (conf : TO2Config DeviceCredential).
Implicit Types (to1d : option (To1d IP)) (log : list (event DeviceCredential IP)).
Implicit Types (urls acc : list string) (directives : list RvDirective).

Ltac call :=
  match goal with
  | |- context [fdo_TO1 ?u ?c ?w] => destruct (fdo_TO1 u c w) as [[? []] ?] eqn:?
  | |- context [fdo_TO2 ?u ?b ?c ?w] => destruct (fdo_TO2 u b c w) as [[? []] ?] eqn:?
  | |- context [net_LookupHost ?d ?w] => destruct (net_LookupHost d w) as [[] ?] eqn:?
  | |- context [awaitTimer ?d ?w] => destruct (awaitTimer d w) as [[] ?] eqn:?
  end.

Ltac sub :=
  let E := fresh "E" in
  match goal with
  | |- context [to1URLs ?c ?u ?b ?w] => destruct (to1URLs c u b w) as [[[? ?] ?] ?] eqn:E
  | |- context [to1Walk ?x ?c ?d ?b ?w] => destruct (to1Walk x c d b w) as [[? ?] ?] eqn:E
  | |- context [blobURLs ?a ?u ?w] => destruct (blobURLs a u w) as [[? ?] ?] eqn:E
  | |- context [addrURLs ?a ?u ?w] => destruct (addrURLs a u w) as [[? ?] ?] eqn:E
  | |- context [to2Walk ?u ?b ?c ?w] => destruct (to2Walk u b c w) as [[? ?] ?] eqn:E
  end.

(** X10.  In rendezvous-only mode no transfer is ever attempted:
    [transferOwnership] returns no credential and its log holds no
    transfer event, and [doOnboard] neither attempts a transfer nor
    writes the credential store. *)
Theorem rvOnly_never_transfers ctx directives conf w :
  rvOnly = true →
  (transferOwnership ctx directives conf w).1.1 = None
  ∧ Forall (λ e, phaseOf e ≠ Transfer) (transferOwnership ctx directives conf w).2
  ∧ Forall (λ e, phaseOf e ≠ Transfer ∧ isUpdateCred e = false) (doOnboard ctx w).2.
Proof.
  intros Hrv.
  assert (∀ ds cf w0,
            (transferOwnership ctx ds cf w0).1.1 = None
            ∧ Forall (λ e, phaseOf e ≠ Transfer ∧ phaseOf e ≠ Storage)
                (transferOwnership ctx ds cf w0).2)
    as Hto.
  { intros ds cf w0. rewrite transferOwnership_eq.
    destruct (to2Candidates ctx ds cf w0) as [[found w1] log1] eqn:E.
    apply to2Candidates_phase in E.
    assert (Forall (λ e, phaseOf e ≠ Transfer ∧ phaseOf e ≠ Storage) log1) as H1.
    { eapply Forall_impl; [exact E|]. by intros e [-> | ->]. }
    destruct found as [[urls to1d]|]; [|done]. rewrite Hrv.
    split; [done|]. cbn [snd]. apply Forall_app. split; [done|].
    destruct to1d; by repeat constructor. }
  split; [apply Hto|]. split.
  { eapply Forall_impl; [apply Hto|]. by intros e [? _]. }
  unfold doOnboard, bind, callReadCred, ret.
  destruct (readCred w) as [[[dc hasCleanup]|err] w1]; [|by repeat constructor].
  unfold doOnboardWith. destruct (CipherSuiteByName cipherSuite).
  - unfold bind. rewrite Hrv.
    destruct (Hto (ParseDeviceRvInfo dc) {| Cred := dc; DeviceModules := ∅ |} w1)
      as [_ Hlog].
    destruct (transferOwnership _ _ _ w1) as [[newDC w2] log2]. cbn [snd] in *.
    assert (Forall (λ e, phaseOf e ≠ Transfer ∧ isUpdateCred e = false) log2) as Hlog'.
    { eapply Forall_impl; [exact Hlog|]. intros e [? ?]. split; [done|by destruct e]. }
    unfold ret, callCleanup.
    destruct hasCleanup; cbn [app snd]; rewrite ?app_nil_r;
      (constructor; [done|]); try done.
    apply Forall_app. split; [done|]. by repeat constructor.
  - unfold ret, callCleanup. destruct hasCleanup; by repeat constructor.
Qed.

(** X11.  An owner address whose transport is neither HTTP nor HTTPS and
    that names a host is dropped without a word: no candidate, no DNS
    lookup, no log entry, and the other addresses of the blob are treated
    as if it were not there. *)
Theorem other_transport_skipped
    (pre post : list (RvTO2Addr IP)) (to2Addr : RvTO2Addr IP) code acc w :
  TransportProtocol to2Addr = protocol.OtherTransport code →
  is_Some (DNSAddress to2Addr) ∨ is_Some (IPAddress to2Addr) →
  addrURLs to2Addr acc w = (acc, w, [])
  ∧ blobURLs (pre ++ to2Addr :: post) acc w = blobURLs (pre ++ post) acc w.
Proof.
  intros Ht Hhost.
  assert (∀ acc w, addrURLs to2Addr acc w = (acc, w, [])) as Haddr.
  { intros acc' w'. unfold addrURLs. rewrite Ht.
    destruct Hhost as [[dns ->]|[ip ->]]; by destruct (DNSAddress to2Addr). }
  split; [apply Haddr|].
  rewrite !blobURLs_app. cbn [blobURLs]. unfold bind.
  destruct (blobURLs pre acc w) as [[urls1 w1] log1]. rewrite Haddr.
  by destruct (blobURLs post urls1 w1) as [[urls2 w2] log2].
Qed.

Lemma addrURLs_bounds (a : RvTO2Addr IP) w urls w' log :
  addrURLs a [] w = (urls, w', log) →
  Forall (λ u, String.prefix "http://" u = true ∨ String.prefix "https://" u = true) urls
  ∧ length urls ≤ 2 ∧ length log ≤ 1.
Proof.
  unfold addrURLs, schemeURLs, bind, emit, ret, isResolvableDNS.
  destruct (DNSAddress a), (IPAddress a), (TransportProtocol a);
    try call; try destruct (isValidIP _);
    intros [= <- <- <-]; cbn [app length];
    (split; [|split; lia]);
    repeat match goal with
           | |- Forall _ (_ :: _) => apply List.Forall_cons
           | |- Forall _ [] => apply List.Forall_nil
           end;
    first [by left; apply (prefix_app "http://")
          | by right; apply (prefix_app "https://")].
Qed.

(** X12.  Whatever the blob holds, every candidate derived from it
    starts with [http://] or [https://]; an address gives at most two
    candidates and costs at most one DNS lookup or log entry. *)
Theorem derived_urls_bounds (addrs : list (RvTO2Addr IP)) w :
  let '(urls, _, log) := blobURLs addrs [] w in
  Forall (λ u, String.prefix "http://" u = true ∨ String.prefix "https://" u = true) urls
  ∧ length urls ≤ 2 * length addrs
  ∧ length log ≤ length addrs.
Proof.
  revert w. induction addrs as [|a addrs IH]; intros w.
  - cbn. by repeat split.
  - cbn [blobURLs]. unfold bind. rewrite addrURLs_acc.
    destruct (addrURLs a [] w) as [[us w1] l1] eqn:Ea.
    apply addrURLs_bounds in Ea as (Hus & Hn & Hl).
    cbn [app]. rewrite blobURLs_acc. specialize (IH w1).
    destruct (blobURLs addrs [] w1) as [[vs w2] l2].
    destruct IH as (Hvs & Hm & Hk). rewrite !length_app. cbn [length].
    split; [by apply Forall_app|]. split; lia.
Qed.

(** X13.  A directive list made of bypass directives only goes straight
    to the transfer: no rendezvous attempt, no suspension (whatever the
    delays say), the world untouched, every URL a candidate in order and
    no blob for TO2. *)
Theorem bypass_only_goes_straight ctx directives conf w :
  Forall (λ d, Bypass d = true) directives →
  to1Walk ctx conf directives None w = (Exhausted None, w, [])
  ∧ to2Candidates ctx directives conf w = (Some (flat_map URLs directives, None), w, [])
  ∧ (rvOnly = false →
     transferOwnership ctx directives conf w
     = to2Walk (flat_map URLs directives) None conf w).
Proof.
  intros Hall.
  assert (to1Walk ctx conf directives None w = (Exhausted None, w, [])) as Hwalk.
  { induction Hall as [|d ds Hd _ IH]; [done|]. cbn [to1Walk]. by rewrite Hd. }
  assert (bypassURLs directives = flat_map URLs directives) as Hby.
  { clear Hwalk. unfold bypassURLs. induction Hall as [|d ds Hd _ IH]; [done|].
    cbn [List.filter flat_map]. rewrite Hd. cbn [flat_map]. by rewrite IH. }
  assert (to2Candidates ctx directives conf w
          = (Some (flat_map URLs directives, None), w, [])) as Hcand.
  { rewrite to2Candidates_eq, Hwalk, Hby. unfold derivedURLs, ret.
    by rewrite app_nil_r. }
  split; [done|]. split; [done|]. intros Hrv.
  rewrite transferOwnership_eq, Hcand, Hrv.
  by destruct (to2Walk _ None conf w) as [[? ?] ?].
Qed.

Lemma suspensionsOK_app ctx log1 log2 :
  Forall (λ e, ∀ d c, e ≠ Suspend d c) log1 →
  suspensionsOK ctx (log1 ++ log2) ↔ suspensionsOK ctx log2.
Proof.
  induction 1 as [|e log1 He _ IH]; [done|].
  cbn [app suspensionsOK]. destruct e; try done. by destruct (He delay cancelled).
Qed.

Lemma to1URLs_ends conf urls to1d w r w' log :
  to1URLs conf urls to1d w = (r, w', log) →
  Forall (λ e, ∀ d c, e ≠ Suspend d c) log
  ∧ (r.2 = true → ∃ pre url, log = pre ++ [CallTO1 url false]).
Proof.
  revert to1d w r w' log. induction urls as [|u urls IH]; intros to1d w r w' log.
  - intros [= <- <- <-]. by split.
  - cbn [to1URLs]. unfold bind, callTO1, emit, ret. call; cbn [fst snd].
    + sub. intros [= <- <- <-]. apply IH in E as [Hno Hend]. cbn [snd] in *. split.
      * by repeat constructor.
      * intros Hb. destruct (Hend Hb) as (pre & url & ->).
        by exists (CallTO1 u true :: LogTO1Failed u :: pre), url.
    + intros [= <- <- <-]. split; [by repeat constructor|].
      intros _. by exists [], u.
Qed.


Lemma to1URLs_failed_nil conf urls to1d w b w' log :
  (∀ url dc w0, (fdo_TO1 url dc w0).1.2 = true → (fdo_TO1 url dc w0).1.1 = None) →
  to1URLs conf urls to1d w = ((b, false), w', log) →
  b = None ∨ b = to1d.
Proof.
  intros Hlib. revert to1d w w' log.
  induction urls as [|u urls IH]; intros to1d w w' log.
  - intros [= <- <- <-]. by right.
  - cbn [to1URLs]. unfold bind, callTO1, emit, ret.
    pose proof (Hlib u (Cred conf) w) as Hu.
    destruct (fdo_TO1 u (Cred conf) w) as [[o []] w0]; cbn [fst snd] in *; [|done].
    rewrite (Hu eq_refl). sub. intros [= -> -> <- <-].
    apply IH in E as [->| ->]; by left.
Qed.

Lemma to1Walk_failed_nil ctx conf directives to1d w b w' log :
  (∀ url dc w0, (fdo_TO1 url dc w0).1.2 = true → (fdo_TO1 url dc w0).1.1 = None) →
  to1Walk ctx conf directives to1d w = (Exhausted b, w', log) →
  b = None ∨ b = to1d.
Proof.
  intros Hlib. revert to1d w w' log.
  induction directives as [|d ds IH]; intros to1d w w' log.
  - intros [= <- <- <-]. by right.
  - cbn [to1Walk]. destruct (Bypass d); [apply IH|].
    unfold bind, ret. sub. cbn [fst snd]. destruct b0; [done|].
    apply to1URLs_failed_nil in E; [|done].
    assert (∀ w1 w2 l1, to1Walk ctx conf ds o w1 = (Exhausted b, w2, l1) →
                     b = None ∨ b = to1d) as Hrest.
    { intros w1 w2 l1 [->| ->]%IH; [by left|]. done. }
    destruct (negb (Delay d =? 0)%Z).
    + destruct (selectDone ctx (Delay d) w0) as [[[] w1] l1]; [done|].
      sub. intros [= -> <- <-]. by eapply Hrest.
    + sub. intros [= -> <- <-]. by eapply Hrest.
Qed.

(** X15.  When every rendezvous attempt fails, and the protocol library
    returns no blob together with an error, the walk ends with no blob:
    the candidates are exactly the URLs of the bypass directives and
    nothing is resolved. *)
Theorem failed_rendezvous_leaves_bypass ctx conf directives w to1d w' log :
  (∀ url dc w0, (fdo_TO1 url dc w0).1.2 = true → (fdo_TO1 url dc w0).1.1 = None) →
  to1Walk ctx conf directives None w = (Exhausted to1d, w', log) →
  to1d = None
  ∧ to2Candidates ctx directives conf w = (Some (bypassURLs directives, None), w', log).
Proof.
  intros Hlib Hwalk.
  assert (to1d = None) as ->.
  { by destruct (to1Walk_failed_nil _ _ _ _ _ _ _ _ Hlib Hwalk). }
  split; [done|]. rewrite to2Candidates_eq, Hwalk. unfold derivedURLs, ret.
  by rewrite !app_nil_r.
Qed.

Lemma transferOwnership_no_storage ctx directives conf w :
  Forall (λ e, phaseOf e ≠ Storage) (transferOwnership ctx directives conf w).2.
Proof.
  rewrite transferOwnership_eq.
  destruct (to2Candidates ctx directives conf w) as [[found w1] log1] eqn:E.
  apply to2Candidates_phase in E.
  assert (Forall (λ e, phaseOf e ≠ Storage) log1) as H1.
  { eapply Forall_impl; [exact E|]. by intros e [-> | ->]. }
  destruct found as [[urls to1d]|]; [|done]. destruct rvOnly.
  - cbn [snd]. apply Forall_app. split; [done|]. destruct to1d; by repeat constructor.
  - destruct (to2Walk urls to1d conf w1) as [[? ?] log2] eqn:E2.
    apply to2Walk_phase in E2. cbn [snd]. apply Forall_app. split; [done|].
    eapply Forall_impl; [exact E2|]. by intros e ->.
Qed.

(** X16.  A successful transfer is stored once: when a transfer attempt
    returns a credential, [doOnboard] announces it, calls [updateCred]
    with that very credential (the one of the last attempt in the log)
    and returns whatever [updateCred] returns, the deferred cleanup
    coming last. *)
Theorem successful_transfer_is_stored
    ctx w dc hasCleanup w1 suite urls to1d w2 log2 dc' w3 log3 err w4 :
  let conf := {| Cred := dc; DeviceModules := ∅ |} in
  readCred w = (inl (dc, hasCleanup), w1) →
  CipherSuiteByName cipherSuite = Some suite →
  rvOnly = false →
  to2Candidates ctx (ParseDeviceRvInfo dc) conf w1 = (Some (urls, to1d), w2, log2) →
  to2Walk urls to1d conf w2 = (Some dc', w3, log3) →
  updateCred dc' w3 = (err, w4) →
  doOnboard ctx w
  = (err, (if hasCleanup then cleanup w4 else w4),
     CallReadCred :: log2 ++ log3
       ++ Println "FIDO Device Onboard Complete" :: CallUpdateCred dc'
       :: (if hasCleanup then [CallCleanup] else []))
  ∧ (∃ tried url, to2Attempts log3 = noCredential tried ++ [(url, Some dc')])
  ∧ Forall (λ e, isUpdateCred e = false) (log2 ++ log3).
Proof.
  intros conf Hread Hsuite Hrv Hcand Hwalk Hupd. split; [|split].
  - unfold doOnboard, bind, callReadCred, ret. rewrite Hread.
    unfold doOnboardWith. rewrite Hsuite. unfold bind.
    rewrite transferOwnership_eq. fold conf. rewrite Hcand, Hrv, Hwalk.
    unfold emit, callUpdateCred, ret, callCleanup. rewrite Hupd.
    destruct hasCleanup; cbn [app]; by rewrite <- ?app_assoc, ?app_nil_r.
  - apply to2Walk_attempts in Hwalk as (tried & url & rest & -> & ->). eauto.
  - apply Forall_app. split.
    + eapply Forall_impl; [exact (to2Candidates_phase _ _ _ _ _ _ _ Hcand)|].
      intros e He. destruct e; cbn in He |- *; first [done | by destruct He].
    + eapply phase_no_update; [|exact (to2Walk_phase _ _ _ _ _ _ _ Hwalk)]. done.
Qed.

(** X17.  The discipline of [doOnboard] on every run.  If [readCred]
    fails, its error is returned and nothing else happens.  Otherwise the
    log is the reading, then events that do not touch the credential
    store, then at most one [updateCred] (never in rendezvous-only
    mode), then the cleanup if [readCred] gave one; an unknown cipher
    suite is an error before any network activity. *)
Theorem doOnboard_discipline ctx w :
  let '(r, w1) := readCred w in
  let '(err, w', log) := doOnboard ctx w in
  match r with
  | inr e => err = Some e ∧ w' = w1 ∧ log = [CallReadCred]
  | inl (dc, hasCleanup) =>
      ∃ mid stored,
        log = CallReadCred :: mid ++ stored
                ++ (if hasCleanup then [CallCleanup] else [])
        ∧ Forall (λ e, phaseOf e ≠ Storage) mid
        ∧ (stored = [] ∨ ∃ dc', stored = [CallUpdateCred dc'] ∧ rvOnly = false)
        ∧ (CipherSuiteByName cipherSuite = None →
           mid = [] ∧ stored = [] ∧ is_Some err)
  end.
Proof.
  unfold doOnboard, bind, callReadCred, ret.
  destruct (readCred w) as [[[dc hasCleanup]|e] w1]; [|done].
  unfold doOnboardWith.
  destruct (CipherSuiteByName cipherSuite) as [suite|] eqn:Hsuite.
  - unfold bind.
    pose proof (transferOwnership_no_storage ctx (ParseDeviceRvInfo dc)
                  {| Cred := dc; DeviceModules := ∅ |} w1) as Hlog.
    destruct (transferOwnership _ _ _ w1) as [[newDC w2] log2]. cbn [snd] in Hlog.
    destruct rvOnly eqn:Hrv.
    + unfold ret, callCleanup.
      destruct hasCleanup; cbn [app]; exists log2, []; rewrite ?app_nil_r;
        (split; [done|]); (split; [done|]); (split; [by left|done]).
    + destruct newDC as [dc'|].
      * unfold emit, callUpdateCred, ret, callCleanup.
        destruct (updateCred dc' w2) as [err w3].
        destruct hasCleanup; cbn [app];
          exists (log2 ++ [Println "FIDO Device Onboard Complete"]), [CallUpdateCred dc'];
          rewrite <- ?app_assoc, ?app_nil_r; cbn [app];
          (split; [done|]);
          (split; [apply Forall_app; split; [done|by repeat constructor]|]);
          (split; [right; by eexists|done]).
      * unfold emit, ret, callCleanup.
        destruct hasCleanup; cbn [app];
          exists (log2 ++ [Println msgNotUpdated]), [];
          rewrite <- ?app_assoc, ?app_nil_r; cbn [app];
          (split; [done|]);
          (split; [apply Forall_app; split; [done|by repeat constructor]|]);
          (split; [by left|done]).
  - unfold ret, callCleanup.
    destruct hasCleanup; cbn [app]; exists [], [];
      (split; [done|]); (split; [done|]); (split; [by left|]);
      intros _; (split; [done|]); (split; [done|by eexists]).
Qed.

End OnboardMore.

(** * The command *)

(** X18.  Each flag gates its own module and nothing else: the
    interoperability module is always there, the download and wget
    modules exactly when their directory is set (and they carry it), the
    command module exactly when echoing is on, the upload module exactly
    when something is registered (and it is backed by the registered
    mapping); no other module exists. *)
Theorem deviceModules_gating `{Flags} (name : string) :
  deviceModules !! name
  = if String.eqb name "fido_alliance" then Some Interop
    else if String.eqb name "fdo.download"
    then (if String.eqb dlDir "" then None else Some (Download dlDir))
    else if String.eqb name "fdo.command"
    then (if echoCmds then Some Command else None)
    else if String.eqb name "fdo.upload"
    then (if (size uploads =? 0)%nat then None else Some (Upload uploads))
    else if String.eqb name "fdo.wget"
    then (if String.eqb wgetDir "" then None else Some (Wget wgetDir))
    else None.
Proof.
  unfold deviceModules.
  replace (0 <? size uploads)%nat with (negb (size uploads =? 0)%nat)
    by (by destruct (size uploads)).
  destruct (String.eqb dlDir ""), echoCmds, (size uploads =? 0)%nat,
    (String.eqb wgetDir ""); cbn [negb];
    (destruct (String.eqb_spec name "fido_alliance") as [->|?];
       [by simplify_map_eq|]);
    (destruct (String.eqb_spec name "fdo.download") as [->|?];
       [by simplify_map_eq|]);
    (destruct (String.eqb_spec name "fdo.command") as [->|?];
       [by simplify_map_eq|]);
    (destruct (String.eqb_spec name "fdo.upload") as [->|?];
       [by simplify_map_eq|]);
    (destruct (String.eqb_spec name "fdo.wget") as [->|?];
       [by simplify_map_eq|]);
    by simplify_map_eq.
Qed.

Section CommandFacts.

Context `{Collaborators, Flags, Host, CommandFlags, !Device}.

Local Ltac sort_out :=
  intuition (try congruence);
  repeat match goal with
         | H : ∃ _, _ |- _ => destruct H
         | H : _ ∧ _ |- _ => destruct H
         | H : _ ∨ _ |- _ => destruct H
         end;
  try congruence; eauto 6.

Lemma slices_Contains_elem (l : list string) (s : string) :
  slices_Contains l s = true ↔ s ∈ l.
Proof.
  unfold slices_Contains. rewrite existsb_exists. split.
  - intros (x & Hin & Heq). apply String.eqb_eq in Heq as <-.
    by apply list_elem_of_In.
  - intros Hin. exists s. split; [by apply list_elem_of_In|apply String.eqb_refl].
Qed.

Lemma fileExists_stat (path : string) :
  fileExists path = true ↔ os_Stat path ≠ StatNotExist.
Proof. unfold fileExists. destruct (os_Stat path); split; done. Qed.

Lemma directory_check (dir : string) :
  negb (String.eqb dir "") && (negb (isValidPath dir) || negb (fileExists dir)) = false
  ↔ dir = "" ∨ isValidPath dir = true ∧ os_Stat dir ≠ StatNotExist.
Proof.
  rewrite <- fileExists_stat.
  destruct (String.eqb_spec dir ""), (isValidPath dir), (fileExists dir);
    cbn [negb andb orb]; sort_out.
Qed.

Lemma validateUploads_None (visit : list string) :
  validateUploads visit = None
  ↔ Forall (λ p, isValidPath p = true ∧ os_Stat p ≠ StatNotExist) visit.
Proof.
  induction visit as [|p rest IH]; cbn [validateUploads].
  - split; [by constructor|done].
  - rewrite Forall_cons, <- IH, <- fileExists_stat.
    destruct (isValidPath p), (fileExists p); cbn [negb]; sort_out.
Qed.

(** X19.  What the flag validation accepts.  It returns no error exactly
    when the cipher suite and the key exchange suite are listed, the key
    check passes, the download and the wget directory are each unset or
    a valid path that [os.Stat] does not report missing, and so is every
    registered upload name.  A [Stat] error other than not-exist counts
    as present; the order in which the uploads are visited changes the
    message at most, never the verdict. *)
Theorem validateOnboardFlags_accepts (visit : list string) :
  visit ≡ₚ (map_to_list uploads).*1 →
  validateOnboardFlags visit = None
  ↔ cipherSuite ∈ validCipherSuites
    ∧ (dlDir = "" ∨ isValidPath dlDir = true ∧ os_Stat dlDir ≠ StatNotExist)
    ∧ validateDiKey = None
    ∧ kexSuite ∈ validKexSuites
    ∧ (∀ path, is_Some (uploads !! path) →
         isValidPath path = true ∧ os_Stat path ≠ StatNotExist)
    ∧ (wgetDir = "" ∨ isValidPath wgetDir = true ∧ os_Stat wgetDir ≠ StatNotExist).
Proof.
  intros Hvisit.
  assert (validateUploads visit = None
          ↔ ∀ path, is_Some (uploads !! path) →
              isValidPath path = true ∧ os_Stat path ≠ StatNotExist) as Hup.
  { rewrite validateUploads_None, Forall_forall. split; intros Hall p Hp.
    - apply Hall. rewrite Hvisit. destruct Hp as [abs Hp].
      apply list_elem_of_fmap. exists (p, abs).
      split; [done|by apply elem_of_map_to_list].
    - apply Hall. rewrite Hvisit in Hp.
      apply list_elem_of_fmap in Hp as ([p' abs] & -> & Hp).
      apply elem_of_map_to_list in Hp. by eexists. }
  rewrite <- Hup, <- !directory_check, <- !slices_Contains_elem.
  unfold validateOnboardFlags.
  destruct (slices_Contains validCipherSuites cipherSuite); cbn [negb];
    [|sort_out].
  destruct (negb (String.eqb dlDir "")
            && (negb (isValidPath dlDir) || negb (fileExists dlDir)));
    [sort_out|].
  destruct validateDiKey; [sort_out|].
  destruct (slices_Contains validKexSuites kexSuite); cbn [negb];
    [|sort_out].
  destruct (validateUploads visit); [sort_out|].
  destruct (negb (String.eqb wgetDir "")
            && (negb (isValidPath wgetDir) || negb (fileExists wgetDir)));
    sort_out.
Qed.

Lemma doOnboard_reads_first ctx w :
  ∃ rest, (doOnboard ctx w).2 = CallReadCred :: rest.
Proof.
  unfold doOnboard, bind, callReadCred, ret.
  destruct (readCred w) as [[[dc hasCleanup]|e] w1]; [|by eexists].
  destruct (doOnboardWith ctx dc w1) as [[err w2] log].
  destruct hasCleanup; cbn; by eexists.
Qed.

Lemma existsb_map_Onboard (log : list (event DeviceCredential IP)) :
  existsb isOnboard (map Onboard log) = match log with [] => false | _ => true end.
Proof. by destruct log. Qed.

Lemma filter_map_Onboard (log : list (event DeviceCredential IP)) :
  List.filter isTpm (map Onboard log) = [].
Proof. induction log as [|e log IH]; [done|]. cbn. exact IH. Qed.

Lemma runLoaded_onboards ctx w :
  existsb isOnboard (runLoaded ctx w).2 = true
  ↔ ∃ status, (loadDeviceStatus w).1 = inl status
      ∧ (status = FDO_STATE_PRE_TO1 ∨ status = FDO_STATE_IDLE ∧ resale = true).
Proof.
  unfold runLoaded.
  destruct (loadDeviceStatus w) as [[status|err] w1]; cbn [fst].
  2: { cbn. split; [done|]. by intros (? & ? & _). }
  destruct (doOnboard_reads_first ctx w1) as [rest Hlog].
  destruct (doOnboard ctx w1) as [[err w2] log]. cbn [snd] in Hlog. subst log.
  destruct status; try destruct resale; cbn; sort_out.
Qed.

Lemma runLoaded_no_tpm ctx w : List.filter isTpm (runLoaded ctx w).2 = [].
Proof.
  unfold runLoaded.
  destruct (loadDeviceStatus w) as [[status|err] w1]; [|done].
  destruct (doOnboard ctx w1) as [[err w2] log].
  pose proof (filter_map_Onboard log) as Hlog.
  destruct status; try destruct resale; cbn [snd printDeviceStatus];
    cbn [List.filter isTpm app]; rewrite ?List.filter_app, ?Hlog; done.
Qed.

(** X20.  When the command onboards.  A run contains onboarding activity
    exactly when the flags pass validation, the TPM (if one is
    configured) opens, and the status loaded after that is pre-TO1, or
    idle with the resale flag set.  In every other state, and after any
    earlier failure, not even the credential is read. *)
Theorem RunE_onboards_exactly_when_due ctx visit w :
  let w0 := if String.eqb tpmPath "" then w else (TpmOpen tpmPath w).2 in
  existsb isOnboard (RunE ctx visit w).2 = true
  ↔ validateOnboardFlags visit = None
    ∧ (tpmPath = "" ∨ (TpmOpen tpmPath w).1 = None)
    ∧ ∃ status, (loadDeviceStatus w0).1 = inl status
        ∧ (status = FDO_STATE_PRE_TO1 ∨ status = FDO_STATE_IDLE ∧ resale = true).
Proof.
  cbv zeta. unfold RunE.
  destruct (validateOnboardFlags visit) as [e|]; [cbn; sort_out|].
  destruct (String.eqb_spec tpmPath "") as [Htpm|Htpm]; cbn [negb].
  - pose proof (runLoaded_onboards ctx w) as Hrun.
    destruct (runLoaded ctx w) as [[err w1] log]. cbn [snd] in *.
    rewrite existsb_app.
    destruct debug; cbn [existsb isOnboard orb]; rewrite Hrun; sort_out.
  - destruct (TpmOpen tpmPath w) as [[e|] w1]; cbn [fst snd].
    + rewrite existsb_app. destruct debug; cbn; sort_out.
    + pose proof (runLoaded_onboards ctx w1) as Hrun.
      destruct (runLoaded ctx w1) as [[err w2] log]. cbn [snd] in *.
      rewrite existsb_app. cbn [existsb isOnboard orb]. rewrite existsb_app.
      cbn [existsb isOnboard orb]. rewrite orb_false_r.
      destruct debug; cbn [existsb isOnboard orb]; rewrite Hrun; sort_out.
Qed.

(** X21.  The TPM over a run.  The TPM events of a run are: none (the
    validation failed or no TPM is configured); one failed open, which is
    the last event and ends the run with an error; or one successful
    open and one close, the close being the last event of the run,
    whatever the run returns. *)
Theorem RunE_tpm_discipline ctx visit w :
  let log := (RunE ctx visit w).2 in
  match List.filter isTpm log with
  | [] => is_Some (validateOnboardFlags visit) ∨ tpmPath = ""
  | [OpenTpm path true] =>
      path = tpmPath ∧ last log = Some (OpenTpm path true)
      ∧ is_Some (RunE ctx visit w).1.1
      ∧ existsb isOnboard log = false
  | [OpenTpm path false; CloseTpm] =>
      path = tpmPath ∧ last log = Some CloseTpm
  | _ => False
  end.
Proof.
  cbv zeta. unfold RunE.
  destruct (validateOnboardFlags visit) as [e|]; [left; by eexists|].
  assert (∀ l : list (cmdEvent DeviceCredential IP),
            List.filter isTpm ((if debug then [SetDebugLevel] else []) ++ l)
            = List.filter isTpm l) as Hlevel.
  { intros l. by destruct debug. }
  destruct (String.eqb_spec tpmPath "") as [Htpm|Htpm]; cbn [negb].
  - pose proof (runLoaded_no_tpm ctx w) as Hrun.
    destruct (runLoaded ctx w) as [[err w1] log]. cbn [snd] in *.
    rewrite Hlevel, Hrun. by right.
  - destruct (TpmOpen tpmPath w) as [[e|] w1]; cbn [fst snd].
    + rewrite Hlevel. cbn [List.filter isTpm].
      split; [done|]. split; [by rewrite last_snoc|]. split; [by eexists|].
      rewrite existsb_app. by destruct debug.
    + pose proof (runLoaded_no_tpm ctx w1) as Hrun.
      destruct (runLoaded ctx w1) as [[err w2] log]. cbn [snd] in *.
      rewrite Hlevel. cbn [List.filter isTpm]. rewrite List.filter_app, Hrun.
      cbn [List.filter isTpm app]. split; [done|].
      change (OpenTpm tpmPath false :: log ++ [CloseTpm])
        with ((OpenTpm tpmPath false :: log) ++ [CloseTpm]).
      by rewrite app_assoc, last_snoc.
Qed.

End CommandFacts.

(** * Every outcome of [Open] *)

Lemma walkUp_registered fuel (files : gmap string string) dir abs :
  walkUp fuel files dir = Some (Some abs) → ∃ name, files !! name = Some abs.
Proof.
  revert dir. induction fuel as [|fuel IH]; intros dir; cbn [walkUp]; [done|].
  destruct (String.eqb dir "/" || String.eqb dir "."); [done|].
  destruct (files !! dir) as [abs'|] eqn:Hdir; [|apply IH].
  intros [= ->]. by exists dir.
Qed.

(** X22.  What [Open] can do, for every mapping and every request.  It
    always returns.  An error is a path error of operation open on the
    request itself: invalid exactly for a malformed request, not-exist
    only for a well-formed one without the passthrough.  A path handed to
    [os.Open] belongs to a well-formed request and is the request itself
    under the passthrough, and otherwise the cleaned value of a
    registered name: nothing that was not registered is ever opened. *)
Theorem Open_outcomes (files : gmap string string) (path : string) :
  ∃ r, Open files path = Some r
    ∧ match r with
      | Failed e =>
          iofs.Op e = "open" ∧ iofs.Path e = path
          ∧ (if iofs.ValidPath path
             then iofs.Err e = iofs.ErrNotExist ∧ files !! "/" = None
             else iofs.Err e = iofs.ErrInvalid)
      | OsOpen real =>
          iofs.ValidPath path = true
          ∧ match files !! "/" with
            | Some _ => real = path
            | None => ∃ name abs, files !! name = Some abs ∧ real = filepath.Clean abs
            end
      end.
Proof.
  destruct (Open_total files path) as [r Hr]. exists r. split; [done|].
  unfold Open in Hr. destruct (iofs.ValidPath path) eqn:Hv; cbn [negb] in Hr.
  2: { injection Hr as <-. by cbn. }
  destruct (files !! "/") as [root|] eqn:Hroot.
  { injection Hr as <-. by rewrite Clean_valid. }
  rewrite pathToName_valid in Hr by done. cbn [mbind option_bind] in Hr.
  destruct (files !! (if String.eqb path "." then "" else path)) as [abs|] eqn:Hname.
  { injection Hr as <-. split; [done|]. eauto. }
  destruct (walkUp _ files _) as [[abs|]|] eqn:Hwalk; cbn in Hr; [| |done].
  - injection Hr as <-. split; [done|].
    apply walkUp_registered in Hwalk as [name Hreg]. eauto.
  - injection Hr as <-. by cbn.
Qed.

(** * The properties above at concrete inputs *)

(** X1 at a download directory and a name that points into [/etc]. *)
Lemma NameToPath_absolute_name_witness :
  NameToPath "/data/downloads" "/etc/passwd" = "/data/downloads/passwd"
  ∧ insideDir "/data/downloads" (NameToPath "/data/downloads" "/etc/passwd") = true.
Proof.
  apply (NameToPath_absolute_name "/data/downloads" "/etc/passwd"); by vm_compute.
Defined.

(** X2 at a name with a detour that stays inside. *)
Lemma NameToPath_plain_name_witness :
  NameToPath "/data/downloads" "a/../b/./c.txt" = "/data/downloads/b/c.txt"
  ∧ insideDir "/data/downloads" (NameToPath "/data/downloads" "a/../b/./c.txt") = true.
Proof.
  apply (NameToPath_plain_name "/data/downloads" "a/../b/./c.txt"); by vm_compute.
Defined.

(** X3 at a path that climbs once. *)
Lemma pathToName_relative_witness :
  ∃ n g,
    Forall goodElem g
    ∧ filepath.Clean "../reports/q1" = cleanedRel n g
    ∧ pathToName "../reports/q1" "/home/reports/q1"
      = Some (match g with
              | [] => if String.eqb "/home/reports/q1" "" then ""
                      else filepath.Join [filepath.Base "/home/reports/q1"]
              | _ :: _ => gostrings.Join g "/"
              end).
Proof.
  exact (pathToName_relative "." "./reports/q1" "/home/reports/q1" eq_refl).
Defined.

(** X4 with only the root registered. *)
Lemma Open_passthrough_witness :
  Open {[ "/" := "/" ]} "etc/shadow" = Some (OsOpen "etc/shadow").
Proof.
  apply (Open_passthrough {[ "/" := "/" ]} "etc/shadow"); [|reflexivity].
  rewrite lookup_singleton_eq. by eexists.
Defined.

(** X5 with one registered directory and a file two levels below it. *)
Lemma Open_deepest_ancestor_witness :
  Open {[ "reports" := "/home/user/reports" ]} "reports/2024/q1.txt"
  = Some (OsOpen "/home/user/reports").
Proof.
  apply (Open_deepest_ancestor {[ "reports" := "/home/user/reports" ]}
           "reports/2024/q1.txt" "reports" "2024/q1.txt" "/home/user/reports");
    [reflexivity|reflexivity|reflexivity|reflexivity|reflexivity|].
  intros mid below _. apply lookup_singleton_ne. intros Heq.
  vm_compute in Heq. discriminate Heq.
Defined.

(** X7 in a home directory. *)
Lemma Open_after_Set_witness :
  fsVar_Set (Some "/home/user") ∅ "reports/2024"
  = (<["reports/2024" := "/home/user/reports/2024"]> ∅, SetDone)
  ∧ Open (fsVar_Set (Some "/home/user") ∅ "reports/2024").1 "reports/2024"
    = Some (OsOpen "/home/user/reports/2024").
Proof.
  apply (Open_after_Set "/home/user" ∅ "reports/2024");
    [reflexivity|by vm_compute|reflexivity|reflexivity].
Defined.

(** X8 with the root written with a detour. *)
Lemma Set_root_is_passthrough_witness :
  fsVar_Set None ∅ "/tmp/.." = (<["/" := "/"]> ∅, SetDone)
  ∧ Open (fsVar_Set None ∅ "/tmp/..").1 "etc/hosts" = Some (OsOpen "etc/hosts").
Proof.
  apply (Set_root_is_passthrough None ∅ "/tmp/.." "etc/hosts"); reflexivity.
Defined.

(** X9 with two registered names, visited last first. *)
Lemma fsVar_String_format_witness :
  fsVar_String {[ "a" := "/x/a"; "b" := "/x/b" ]} ["b"; "a"] = "[b,a]".
Proof.
  apply (fsVar_String_format {[ "a" := "/x/a"; "b" := "/x/b" ]} ["b"; "a"]).
  vm_compute. apply perm_swap.
Defined.

(** X10 in the laboratory with the rendezvous-only flag. *)
Lemma rvOnly_never_transfers_witness :
  (@transferOwnership (Lab.collaborators true) Bench.flagsRvOnly
     Lab.live Lab.directives Lab.conf 0%nat).1.1 = None.
Proof.
  exact (proj1 (@rvOnly_never_transfers (Lab.collaborators true) Bench.flagsRvOnly
                  Lab.live Lab.directives Lab.conf 0%nat eq_refl)).
Defined.

(** X11 at an address that asks for another transport. *)
Lemma other_transport_skipped_witness :
  @addrURLs (Lab.collaborators true)
    {| IPAddress := Some "192.0.2.7"; DNSAddress := None; Port := 8443;
       TransportProtocol := protocol.OtherTransport 3 |} [] 0%nat
  = ([], 0%nat, []).
Proof.
  refine (proj1 (@other_transport_skipped (Lab.collaborators true) [] []
                   {| IPAddress := Some "192.0.2.7"; DNSAddress := None; Port := 8443;
                      TransportProtocol := protocol.OtherTransport 3 |}
                   3%N [] 0%nat eq_refl _)).
  right. by eexists.
Defined.

(** X13 at a directive list that names the owner directly. *)
Lemma bypass_only_goes_straight_witness :
  @to2Candidates (Lab.collaborators true) Lab.live Bench.bypassDirectives Lab.conf 0%nat
  = (Some (["https://owner.example:8443"; "https://192.0.2.7:8443"], None), 0%nat, []).
Proof.
  refine (proj1 (proj2 (@bypass_only_goes_straight (Lab.collaborators true) Lab.flags
                          Lab.live Bench.bypassDirectives Lab.conf 0%nat _))).
  repeat constructor.
Defined.

(** X15 with a rendezvous server that is down and one bypass directive. *)
Lemma failed_rendezvous_leaves_bypass_witness :
  @to2Candidates (Lab.collaborators true) Lab.live
    [ {| URLs := ["http://down.example"]; Bypass := false; Delay := 0 |};
      {| URLs := ["https://owner.example:8443"]; Bypass := true; Delay := 0 |} ]
    Lab.conf 0%nat
  = (Some (["https://owner.example:8443"], None), 1%nat,
     [CallTO1 "http://down.example" true; LogTO1Failed "http://down.example"]).
Proof.
  refine (proj2 (@failed_rendezvous_leaves_bypass (Lab.collaborators true) Lab.live
                   Lab.conf
                   [ {| URLs := ["http://down.example"]; Bypass := false; Delay := 0 |};
                     {| URLs := ["https://owner.example:8443"]; Bypass := true;
                        Delay := 0 |} ]
                   0%nat None 1%nat
                   [CallTO1 "http://down.example" true;
                    LogTO1Failed "http://down.example"] _ eq_refl)).
  intros url dc w0. cbn. by destruct (String.eqb url "http://rv.example:8080").
Defined.

(** X16 in the laboratory with the owner up: the first candidate gives
    the credential, which is stored once, before the cleanup. *)
Lemma successful_transfer_is_stored_witness :
  @doOnboard (Lab.collaborators true) Lab.flags Lab.live 0%nat
  = (None, 8%nat,
     [CallReadCred;
      CallTO1 "http://down.example" true; LogTO1Failed "http://down.example";
      Suspend 5000000000 false;
      CallTO1 "http://rv.example:8080" false;
      CallLookupHost "owner.example" true;
      CallTO2 "https://owner.example:8443" (Some "new-credential") false;
      Println "FIDO Device Onboard Complete";
      CallUpdateCred "new-credential"; CallCleanup]).
Proof.
  exact (proj1 (@successful_transfer_is_stored (Lab.collaborators true) Lab.flags
                  Lab.live 0%nat "old-credential" true 1%nat 1%N
                  ["https://owner.example:8443"; "https://192.0.2.7:8443"]
                  (Some Lab.blob) 5%nat
                  [CallTO1 "http://down.example" true; LogTO1Failed "http://down.example";
                   Suspend 5000000000 false;
                   CallTO1 "http://rv.example:8080" false;
                   CallLookupHost "owner.example" true]
                  "new-credential" 6%nat
                  [CallTO2 "https://owner.example:8443" (Some "new-credential") false]
                  None 7%nat
                  eq_refl eq_refl eq_refl eq_refl eq_refl eq_refl)).
Defined.

(** X19 on the bench: the flags pass, so the registered upload is a valid
    path that is present. *)
Lemma validateOnboardFlags_accepts_witness :
  @isValidPath Bench.host "reports" = true
  ∧ @os_Stat Bench.host "reports" ≠ StatNotExist.
Proof.
  assert (["reports"] ≡ₚ (map_to_list (@uploads Bench.flagsUpload)).*1) as Hvisit.
  { vm_compute. reflexivity. }
  destruct (proj1 (@validateOnboardFlags_accepts Bench.flagsUpload Bench.host
                     Bench.commandFlags ["reports"] Hvisit) eq_refl)
    as (_ & _ & _ & _ & Hup & _).
  apply (Hup "reports"). vm_compute. by eexists.
Defined.
